(** * Sparkify churn pipeline: labeler, feature builder, redundancy reducer

    A shallow embedding of the data-frame transformations of
    [Sparkify_full.ipynb] ([clean_data], [label_data], [build_features],
    [drop_multicollinear_features], [split_train_test] and the column lists
    of the workflow) together with the properties their specification
    states and further properties of the code.

    Conventions of the embedding:
    - a Spark data frame is the list of its rows; SQL [NULL] is [None];
    - Spark [long]s are [Z]; Spark [double]s are exact rationals [Q]
      (rounding is not modelled), and a division by zero yields [NULL] as in
      Spark's default mode;
    - the subtraction of two [long]s wraps around at 64 bits;
    - a window [partitionBy('userId').orderBy('ts')] with an unbounded frame
      is the list of the rows of the partition, stably sorted by [ts]: rows
      with equal timestamps keep the order of the data frame; the rows of a
      [groupBy] group keep the order of the frame that is grouped, which for
      the frame carrying the window columns is the order of the window;
    - the calls into the statistics and graph libraries are taken by their
      results: [Correlation.corr] is a function of two columns into the
      rationals (the NaN of a constant column is not modelled), and
      [connected_components] is the library's labelling of the components;
    - the draws of [sampleBy] are a function of the position of the row, the
      same each time the sample is computed. *)

From Stdlib Require Import Ascii.
From Stdlib Require Import List String ZArith QArith Qabs Bool Lia.
From Stdlib Require Import Sorting.Sorted Sorting.Permutation.
Import ListNotations.

Local Open Scope string_scope.
Local Open Scope Z_scope.
Local Open Scope list_scope.

(** ** Data model *)

(** One row of the raw event log (the fields the pipeline reads). *)
Record Event : Type := mkEvent {
  userId : string;
  ts : Z;
  page : string;
  registration : option Z;
  sessionId : Z
}.

(** A row of the labeled log: the event and its label column. *)
Record Labeled : Type := mkLabeled {
  event : Event;
  Churn : option Z
}.

Definition terminal_action : string := "Cancellation Confirmation".

(** ** SQL aggregates *)

Definition sql_min (l : list Z) : option Z :=
  match l with
  | [] => None
  | x :: xs => Some (fold_left Z.min xs x)
  end.

Definition sql_max (l : list Z) : option Z :=
  match l with
  | [] => None
  | x :: xs => Some (fold_left Z.max xs x)
  end.

Definition sql_first {A : Type} (l : list A) : option A := hd_error l.

Fixpoint sql_last {A : Type} (l : list A) : option A :=
  match l with
  | [] => None
  | [x] => Some x
  | _ :: xs => sql_last xs
  end.

Definition sql_sum (l : list Z) : Z := fold_left Z.add l 0.

(** [when(c, 1).otherwise(0)] *)
Definition when01 (c : bool) : Z := if c then 1 else 0.

(** Spark's [/]: always a double, [NULL] on a [NULL] operand or a zero divisor. *)
Definition sql_div (a b : option Q) : option Q :=
  match a, b with
  | Some x, Some y => if Qeq_bool y 0 then None else Some (x / y)%Q
  | _, _ => None
  end.

(** A Spark [long] is a 64-bit signed integer; its arithmetic wraps around
    (ANSI mode off). *)
Definition wrap_long (z : Z) : Z := (z + 2 ^ 63) mod 2 ^ 64 - 2 ^ 63.

Definition sql_sub (a b : option Z) : option Z :=
  match a, b with
  | Some x, Some y => Some (wrap_long (x - y))
  | _, _ => None
  end.

Definition of_long (a : option Z) : option Q := option_map inject_Z a.

(** ** Windows *)

Section Window.
Context {R : Type}.
Variable uid : R -> string.
Variable tsf : R -> Z.

Definition partitionBy (u : string) (df : list R) : list R :=
  filter (fun r => String.eqb (uid r) u) df.

Fixpoint insert_by_ts (r : R) (l : list R) : list R :=
  match l with
  | [] => [r]
  | x :: xs => if tsf r <=? tsf x then r :: l else x :: insert_by_ts r xs
  end.

Definition orderBy (l : list R) : list R := fold_right insert_by_ts [] l.

(** [Window.partitionBy('userId').orderBy('ts')
      .rangeBetween(Window.unboundedPreceding, Window.unboundedFollowing)]
    evaluated at row [r]. *)
Definition userWindow (df : list R) (r : R) : list R :=
  orderBy (partitionBy (uid r) df).
End Window.

(** ** Labeler *)

(** [withColumn(label, when(col('page')=='Cancellation Confirmation', 1).otherwise(0))] *)
Definition churn_flags (df : list Event) : list (Event * Z) :=
  map (fun e => (e, when01 (String.eqb (page e) terminal_action))) df.

Definition fuid (x : Event * Z) : string := userId (fst x).
Definition fts (x : Event * Z) : Z := ts (fst x).

(** [withColumn(label, max(label).over(userWindow))] on top of [churn_flags]. *)
Definition label_data (df : list Event) : list Labeled :=
  map (fun r => mkLabeled (fst r)
                  (sql_max (map snd (userWindow fuid fts (churn_flags df) r))))
      (churn_flags df).

(** ** Feature builder *)

Definition luid (r : Labeled) : string := userId (event r).
Definition lts (r : Labeled) : Z := ts (event r).

Definition obs_start_default (df : list Labeled) : option Z := sql_min (map lts df).
Definition obs_end_default (df : list Labeled) : option Z := sql_max (map lts df).

(** [when(col('registration') > obs_start_default, first(col('ts')).over(userWindow))
      .otherwise(obs_start_default)] *)
Definition obs_start (df : list Labeled) (r : Labeled) : option Z :=
  match registration (event r), obs_start_default df with
  | Some reg, Some d =>
      if reg >? d then sql_first (map lts (userWindow luid lts df r))
      else obs_start_default df
  | _, _ => obs_start_default df
  end.

(** [last(col('page')).over(userWindow)] *)
Definition end_state (df : list Labeled) (r : Labeled) : option string :=
  sql_last (map (fun x => page (event x)) (userWindow luid lts df r)).

(** [when(col('end_state') == 'Cancellation Confirmation', last(col('ts')).over(userWindow))
      .otherwise(obs_end_default)] *)
Definition obs_end (df : list Labeled) (r : Labeled) : option Z :=
  match end_state df r with
  | Some p =>
      if String.eqb p terminal_action
      then sql_last (map lts (userWindow luid lts df r))
      else obs_end_default df
  | None => obs_end_default df
  end.

(** [(col('obs_end') - col('obs_start'))/1000/3600/24] *)
Definition obsDays (df : list Labeled) (r : Labeled) : option Q :=
  sql_div (sql_div (sql_div (of_long (sql_sub (obs_end df r) (obs_start df r)))
                            (Some 1000%Q)) (Some 3600%Q)) (Some 24%Q).

(** *** Per-user rows: named numeric columns *)

Definition Cols : Type := list (string * option Q).

(** [col(name)]; every column read by the pipeline exists in the row it is
    read from. *)
Fixpoint col (name : string) (row : Cols) : option Q :=
  match row with
  | [] => None
  | (n, v) :: rest => if String.eqb n name then v else col name rest
  end.

Definition has_col (name : string) (row : Cols) : bool :=
  existsb (fun c => String.eqb (fst c) name) row.

Definition withColumn (name : string) (v : Cols -> option Q) (row : Cols) : Cols :=
  if has_col name row
  then map (fun c => if String.eqb (fst c) name then (name, v row) else c) row
  else row ++ [(name, v row)].

Definition drop (names : list string) (row : Cols) : Cols :=
  filter (fun c => negb (existsb (String.eqb (fst c)) names)) row.

(** The raw action counts: [sum(when(<condition on page>, 1).otherwise(0)).alias(<name>)]. *)
Definition count_columns : list (string * (string -> bool)) :=
  [ ("nSongs", fun p => String.eqb p "NextSong");
    ("nThumbsUp", fun p => String.eqb p "Thumbs Up");
    ("nThumbsDown", fun p => String.eqb p "Thumbs Down");
    ("nUpgrade", fun p => String.eqb p "Upgrade" || String.eqb p "Submit Upgrade");
    ("nDowngrade", fun p => String.eqb p "Downgrade" || String.eqb p "Submit Downgrade");
    ("nAddFriend", fun p => String.eqb p "Add Friend");
    ("nAddPlaylist", fun p => String.eqb p "Add to Playlist");
    ("nAdvert", fun p => String.eqb p "Roll Advert");
    ("nHelp", fun p => String.eqb p "Help");
    ("nError", fun p => String.eqb p "Error") ].

(** The daily rates: [withColumn(<rate>, col(<count>) / col('obsDays'))]. *)
Definition rate_columns : list (string * string) :=
  [ ("avgDailySongs", "nSongs");
    ("avgDailyThumbsUp", "nThumbsUp");
    ("avgDailyThumbsDown", "nThumbsDown");
    ("avgDailyUpgrade", "nUpgrade");
    ("avgDailyDowngrade", "nDowngrade");
    ("avgDailyAddFriend", "nAddFriend");
    ("avgDailyAddPlaylist", "nAddPlaylist");
    ("avgDailyAdvert", "nAdvert");
    ("avgDailyHelp", "nHelp");
    ("avgDailyError", "nError") ].

Definition dropped_columns : list string :=
  [ "obsDays"; "nSongs"; "nThumbsUp"; "nThumbsDown"; "nUpgrade"; "nDowngrade";
    "nAddFriend"; "nAddPlaylist"; "nAdvert"; "nHelp"; "nError" ].

Definition group (df : list Labeled) (u : string) : list Labeled :=
  partitionBy luid u df.

Definition count_when (p : string -> bool) (g : list Labeled) : Z :=
  sql_sum (map (fun r => when01 (p (page (event r)))) g).

(** The user's rows of the frame that carries the window columns: that
    frame comes out of the window, its rows lie in the order of the window. *)
Definition windowed_group (df : list Labeled) (u : string) : list Labeled :=
  orderBy lts (group df u).

(** [first(col('obsDays'))] of the user's group. *)
Definition user_obsDays (df : list Labeled) (u : string) : option Q :=
  match sql_first (windowed_group df u) with
  | Some r => obsDays df r
  | None => None
  end.

(** [first(col(label))] of the user's group. *)
Definition user_label (df : list Labeled) (u : string) : option Z :=
  match sql_first (windowed_group df u) with
  | Some r => Churn r
  | None => None
  end.

(** [df.groupBy('userId').agg(first(col(label)), first(col('obsDays')), sum(...), ...)] *)
Definition agg_user (df : list Labeled) (u : string) : Cols :=
  [ ("Churn", of_long (user_label df u)); ("obsDays", user_obsDays df u) ]
  ++ map (fun c => (fst c, Some (inject_Z (count_when (snd c) (group df u)))))
         count_columns.

(** [(last(col('ts')) - last(col('registration')))/1000/3600/24] per user. *)
Definition registDuration (df : list Labeled) (u : string) : option Q :=
  let l := sql_last (group df u) in
  let last_ts := option_map lts l in
  let last_reg := match l with Some r => registration (event r) | None => None end in
  sql_div (sql_div (sql_div (of_long (sql_sub last_ts last_reg))
                            (Some 1000%Q)) (Some 3600%Q)) (Some 24%Q).

(** [avg] over a column: the mean of its non-null values, [NULL] if none. *)
Definition sql_avg (l : list (option Q)) : option Q :=
  let vals := flat_map (fun v => match v with Some q => [q] | None => [] end) l in
  match vals with
  | [] => None
  | _ => Some (fold_left Qplus vals 0%Q / inject_Z (Z.of_nat (List.length vals)))%Q
  end.

(** [groupBy(['userId','sessionId']).agg(min(ts), max(ts))
      .groupBy('userId').agg(avg((session_end - session_start)/1000/3600))] *)
Definition avgSessionDuration (df : list Labeled) (u : string) : option Q :=
  let g := group df u in
  let sessions := nodup Z.eq_dec (map (fun r => sessionId (event r)) g) in
  sql_avg
    (map (fun s =>
            let rows := filter (fun r => sessionId (event r) =? s) g in
            let session_start := sql_min (map lts rows) in
            let session_end := sql_max (map lts rows) in
            sql_div (sql_div (of_long (sql_sub session_end session_start))
                             (Some 1000%Q)) (Some 3600%Q))
         sessions).

(** The aggregated row joined with the two duration tables on ['userId']. *)
Definition joined_user (df : list Labeled) (u : string) : Cols :=
  agg_user df u
  ++ [ ("registDuration", registDuration df u) ]
  ++ [ ("avgSessionDuration", avgSessionDuration df u) ].

Definition rate (raw : string) (row : Cols) : option Q :=
  sql_div (col raw row) (col "obsDays" row).

(** The chain of [withColumn]s and the final [drop] (['userId'] is the key
    the rows are indexed by here, so it is not among the columns). *)
Definition finish_user (row : Cols) : Cols :=
  drop dropped_columns
       (fold_left (fun acc c => withColumn (fst c) (rate (snd c)) acc)
                  rate_columns row).

Definition user_row (df : list Labeled) (u : string) : Cols :=
  finish_user (joined_user df u).

Definition users (df : list Labeled) : list string :=
  nodup string_dec (map luid df).

(** [build_features(df)] with the default label name: one row per user. *)
Definition build_features (df : list Labeled) : list Cols :=
  map (user_row df) (users df).


(** * Redundancy reducer *)

(** ** Python results *)

Inductive PyError : Type :=
| UnboundLocalError (name : string)
| KeyError (key : string)
| ValueError.

Inductive result (A : Type) : Type :=
| Ok (a : A)
| Raise (e : PyError).

Arguments Ok {A} a.
Arguments Raise {A} e.

Definition bind {A B : Type} (r : result A) (k : A -> result B) : result B :=
  match r with
  | Ok a => k a
  | Raise e => Raise e
  end.

Notation "x <- r ;; k" := (bind r (fun x => k))
  (at level 61, r at next level, right associativity).

Definition memb (x : nat) (l : list nat) : bool := existsb (Nat.eqb x) l.

Definition mems (x : string) (l : list string) : bool := existsb (String.eqb x) l.

(** ** [scipy.sparse.csgraph.connected_components(csgraph, directed=False)]

    The library labels the nodes [0 .. n-1] of the graph whose edges are
    the non-zero entries of [csgraph], taken in both directions: nodes are
    visited in index order, and each node that has no label yet starts a
    new component, whose label is the next unused integer and is given to
    every node reachable from it. *)

Section ConnectedComponents.
Variable n : nat.
Variable csgraph : nat -> nat -> Z.

Definition linked (i j : nat) : bool :=
  negb (csgraph i j =? 0) || negb (csgraph j i =? 0).

(** One round of the traversal: the nodes seen so far and their new
    neighbours. *)
Definition expand (seen : list nat) : list nat :=
  seen ++ filter (fun j => negb (memb j seen) && existsb (fun i => linked i j) seen)
                 (seq 0 n).

Fixpoint flood (fuel : nat) (seen : list nat) : list nat :=
  match fuel with
  | O => seen
  | S fuel' => flood fuel' (expand seen)
  end.

(** The nodes reachable from [i]; [n] rounds reach all of them. *)
Definition component (i : nat) : list nat := flood n [i].

Definition label_of (labelled : list (nat * nat)) (i : nat) : option nat :=
  match find (fun p => Nat.eqb (fst p) i) labelled with
  | Some p => Some (snd p)
  | None => None
  end.

Fixpoint scan (todo : list nat) (next : nat) (labelled : list (nat * nat))
  : nat * list (nat * nat) :=
  match todo with
  | [] => (next, labelled)
  | i :: rest =>
      match label_of labelled i with
      | Some _ => scan rest next labelled
      | None =>
          scan rest (S next)
               (labelled ++ map (fun j => (j, next)) (component i))
      end
  end.

(** The pair [(n_components, labels)]. *)
Definition connected_components : nat * list nat :=
  let (k, labelled) := scan (seq 0 n) O [] in
  (k, map (fun i => match label_of labelled i with Some l => l | None => O end)
          (seq 0 n)).
End ConnectedComponents.

(** ** [drop_multicollinear_features] *)

Definition Qgtb (a b : Q) : bool := negb (Qle_bool a b).

(** [np.unique(a, return_counts=True)]: the distinct values in increasing
    order, each with its number of occurrences. *)
Definition np_unique (a : list nat) : list (nat * nat) :=
  filter (fun p => (0 <? snd p)%nat)
         (map (fun v => (v, count_occ Nat.eq_dec a v)) (seq 0 (S (list_max a)))).

(** [Series.idxmax()]: the index label of the first occurrence of the maximum. *)
Definition idxmax (s : list (string * Q)) : result string :=
  match s with
  | [] => Raise ValueError
  | x :: rest =>
      Ok (fst (fold_left (fun best y => if Qgtb (snd y) (snd best) then y else best)
                         rest x))
  end.

(** [list.remove(x)]: removes the first occurrence (the callers pass an
    element of the list). *)
Fixpoint list_remove (x : string) (l : list string) : list string :=
  match l with
  | [] => []
  | y :: ys => if String.eqb y x then ys else y :: list_remove x ys
  end.

Section Reducer.
Context {Column : Type}.

(** [Correlation.corr]: the Pearson correlation of two columns of the
    table, as computed by the statistics library. *)
Variable corr : Column -> Column -> Q.

(** A feature table, column by column: name and contents. *)
Definition DataFrame : Type := list (string * Column).

Definition columns (df : DataFrame) : list string := map fst df.

(** [DataFrame.drop], with the names unpacked from a list *)
Definition df_drop (cols : list string) (df : DataFrame) : DataFrame :=
  filter (fun c => negb (mems (fst c) cols)) df.

(** Entry [(i, j)] of [corr_values.reshape(-1, len(user_df.columns))]. *)
Definition corr_values (df : DataFrame) (i j : nat) : Q :=
  match nth_error df i, nth_error df j with
  | Some a, Some b => corr (snd a) (snd b)
  | _, _ => 0%Q
  end.

(** [np.abs(corr_mat_pd.values) > threshold] *)
Definition is_high_corr (df : DataFrame) (threshold : Q) (i j : nat) : bool :=
  Qgtb (Qabs (corr_values df i j)) threshold.

(** [is_high_corr.astype(int) - np.identity(len(user_df.columns))] *)
Definition adj_mat (df : DataFrame) (threshold : Q) (i j : nat) : Z :=
  (if is_high_corr df threshold i j then 1 else 0) - (if Nat.eqb i j then 1 else 0).

Definition corr_labels (df : DataFrame) (threshold : Q) : list nat :=
  snd (connected_components (List.length df) (adj_mat df threshold)).

(** [unique[unique_counts > 1]] *)
Definition high_corr_labels (df : DataFrame) (threshold : Q) : list nat :=
  map fst (filter (fun p => (1 <? snd p)%nat) (np_unique (corr_labels df threshold))).

(** [[col_name for corr_label, col_name in zip(corr_labels, user_df.columns)
      if corr_label == high_corr_label]] *)
Definition group_columns (df : DataFrame) (threshold : Q) (high_corr_label : nat)
  : list string :=
  map snd (filter (fun p => Nat.eqb (fst p) high_corr_label)
                  (combine (corr_labels df threshold) (columns df))).

Definition high_corr_col_dict (df : DataFrame) (threshold : Q)
  : list (nat * list string) :=
  map (fun l => (l, group_columns df threshold l)) (high_corr_labels df threshold).

Definition lookup (name : string) (df : DataFrame) : option Column :=
  match find (fun c => String.eqb (fst c) name) df with
  | Some c => Some (snd c)
  | None => None
  end.

(** The cell of the correlation frame at row label [r] and column label [c]. *)
Definition cell (df : DataFrame) (r c : string) : Q :=
  match lookup r df, lookup c df with
  | Some x, Some y => corr x y
  | _, _ => 0%Q
  end.

(** [corr_mat_pd.loc[rows, c]], where [live] is the current index of
    [corr_mat_pd] (its columns are always the same list): a missing label
    is a [KeyError]. *)
Definition loc (df : DataFrame) (live : list string) (rows : list string) (c : string)
  : result (list (string * Q)) :=
  if mems c live then
    match find (fun r => negb (mems r live)) rows with
    | Some r => Raise (KeyError r)
    | None => Ok (map (fun r => (r, cell df r c)) rows)
    end
  else Raise (KeyError c).

(** The body of the loop over [high_corr_col_dict.values()]; the state is
    the index of [corr_mat_pd] and [cols_to_drop]. *)
Definition reduce_group (df : DataFrame) (label : string)
           (st : list string * list string) (col_name_list : list string)
  : result (list string * list string) :=
  series <- loc df (fst st) col_name_list label ;;
  col_to_keep <- idxmax series ;;
  let col_name_list := list_remove col_to_keep col_name_list in
  Ok (filter (fun c => negb (mems c col_name_list)) (fst st),
      snd st ++ col_name_list).

Fixpoint reduce_groups (df : DataFrame) (label : string)
         (groups : list (list string)) (st : list string * list string)
  : result (list string * list string) :=
  match groups with
  | [] => Ok st
  | g :: rest => st' <- reduce_group df label st g ;; reduce_groups df label rest st'
  end.

(** The local variable [cols_to_drop] after the [if]: bound only when the
    branch was taken. *)
Definition cols_to_drop (df : DataFrame) (label : string) (threshold : Q)
  : result (option (list string)) :=
  if (0 <? List.length (high_corr_labels df threshold))%nat then
    st <- reduce_groups df label (map snd (high_corr_col_dict df threshold))
                        (columns df, []) ;;
    Ok (Some (snd st))
  else Ok None.

Definition drop_multicollinear_features
           (user_df : DataFrame) (label : string) (threshold : Q)
  : result DataFrame :=
  bound <- cols_to_drop user_df label threshold ;;
  match bound with
  | Some cols => Ok (df_drop cols user_df)
  | None => Raise (UnboundLocalError "cols_to_drop")
  end.
End Reducer.

(** ** The workflow of the notebook *)

(** The per-user rows seen as a table, column by column. *)
Definition table_of (rows : list Cols) : @DataFrame (list (option Q)) :=
  match rows with
  | [] => []
  | r :: _ => map (fun name => (name, map (col name) rows)) (map fst r)
  end.

(** [drop_multicollinear_features(build_features(label_data(df)))] with the
    default label and threshold. *)
Definition model_df (corr : list (option Q) -> list (option Q) -> Q)
           (df : list Event) : result (@DataFrame (list (option Q))) :=
  drop_multicollinear_features corr (table_of (build_features (label_data df)))
                               "Churn" 0.85%Q.

(** * The rest of the notebook *)

(** ** [clean_data] *)

(** The exceptions the location lambda can raise. *)
Inductive UdfError : Type :=
| IndexError
| AttributeError.

Inductive udf_result : Type :=
| Returned (s : string)
| Failed (e : UdfError).

Definition cons_head (c : Ascii.ascii) (pieces : list string) : list string :=
  match pieces with
  | p :: ps => String c p :: ps
  | [] => [String c EmptyString]
  end.

(** [str.split(sep)] for a non-empty separator: the pieces between the
    leftmost occurrences of [sep]; [skip] counts the characters of a matched
    separator that are still to be passed over. *)
Fixpoint split_from (sep s : string) (skip : nat) : list string :=
  match s with
  | EmptyString => [EmptyString]
  | String c s' =>
      match skip with
      | S k => split_from sep s' k
      | O =>
          if String.prefix sep s
          then EmptyString :: split_from sep s' (String.length sep - 1)
          else cons_head c (split_from sep s' O)
      end
  end.

Definition py_split (sep s : string) : list string := split_from sep s O.

(** [lambda x: x.split(', ')[1].split('-')[0]]; Spark passes a null
    location as [None]. *)
Definition state_udf (x : option string) : udf_result :=
  match x with
  | None => Failed AttributeError
  | Some s =>
      match py_split ", " s with
      | _ :: p :: _ =>
          match py_split "-" p with
          | q :: _ => Returned q
          | [] => Failed IndexError
          end
      | _ => Failed IndexError
      end
  end.

(** A row of the raw log: the fields of [Event] and the location. *)
Record RawEvent : Type := mkRawEvent {
  raw_event : Event;
  raw_location : option string
}.

(** A row of the cleaned log. The new location is the value of the udf on
    the row; Spark computes it when the column is read. *)
Record CleanEvent : Type := mkCleanEvent {
  clean_event : Event;
  registrationTime : option Q;
  time : Q;
  location : udf_result
}.

Definition isNotNull {A : Type} (x : option A) : bool :=
  match x with
  | Some _ => true
  | None => false
  end.

Definition clean_data (df : list RawEvent) : list CleanEvent :=
  map (fun r =>
         mkCleanEvent (raw_event r)
           (option_map (fun t => (inject_Z t / 1000)%Q) (registration (raw_event r)))
           (inject_Z (ts (raw_event r)) / 1000)%Q
           (state_udf (raw_location r)))
      (filter (fun r => isNotNull (registration (raw_event r))) df).

(** [df = clean_data(df); df = label_data(df)] *)
Definition cleaned_and_labeled (df : list RawEvent) : list Labeled :=
  label_data (map clean_event (clean_data df)).

(** ** The churn counts of the workflow *)

(** [dropDuplicates(['userId'])]: one row per user; the first one of the
    data frame is kept (Spark keeps an arbitrary one). *)
Fixpoint dropDuplicates_from (seen : list string) (df : list Labeled) : list Labeled :=
  match df with
  | [] => []
  | r :: rest =>
      if mems (luid r) seen then dropDuplicates_from seen rest
      else r :: dropDuplicates_from (luid r :: seen) rest
  end.

Definition dropDuplicates_userId (df : list Labeled) : list Labeled :=
  dropDuplicates_from [] df.

Definition label_eqb (a b : option Z) : bool :=
  match a, b with
  | Some x, Some y => x =? y
  | None, None => true
  | _, _ => false
  end.

Fixpoint distinct_labels (seen : list (option Z)) (l : list (option Z))
  : list (option Z) :=
  match l with
  | [] => []
  | v :: rest =>
      if existsb (label_eqb v) seen then distinct_labels seen rest
      else v :: distinct_labels (v :: seen) rest
  end.

(** [groupby('Churn').count()]: one row per label value, with the number of
    rows that carry it. *)
Definition groupby_Churn_count (df : list Labeled) : list (option Z * nat) :=
  map (fun v => (v, List.length (filter (fun r => label_eqb (Churn r) v) df)))
      (distinct_labels [] (map Churn df)).

(** [df.dropDuplicates(['userId']).groupby('Churn').count()] *)
Definition churn_counts (df : list Labeled) : list (option Z * nat) :=
  groupby_Churn_count (dropDuplicates_userId df).

(** ** [split_train_test] *)

Definition Qltb (a b : Q) : bool := negb (Qle_bool b a).

Section SplitTrainTest.
Context {Row : Type}.

(** The label column of a row. *)
Variable label_of : Row -> option Z.

(** Equality of rows, as [subtract] compares them. *)
Variable row_eqb : Row -> Row -> bool.

(** [rand(seed)]: the number in [0, 1) drawn for the row at a position. *)
Variable rand : nat -> Q.

(** [fractions.getOrElse(stratum, 0.0)] for [fractions = {0: fraction, 1: fraction}]. *)
Definition stratum_fraction (fraction : Q) (stratum : option Z) : Q :=
  match stratum with
  | Some 0 => fraction
  | Some 1 => fraction
  | _ => 0%Q
  end.

(** The rows whose draw is below the fraction of their stratum. *)
Definition sampled (fraction : Q) (df : list Row) : list Row :=
  map snd
      (filter (fun ir => Qltb (rand (fst ir)) (stratum_fraction fraction (label_of (snd ir))))
              (combine (seq 0 (List.length df)) df)).

(** Spark requires every fraction to lie in [0, 1]. *)
Definition valid_fraction (p : Q) : bool := Qle_bool 0 p && Qle_bool p 1.

(** [sampleBy(label, fractions={0: fraction, 1: fraction}, seed=seed)]: a row
    is kept when its draw is below the fraction of its stratum; [None] is
    the IllegalArgumentException for a fraction outside [0, 1]. *)
Definition sampleBy (fraction : Q) (df : list Row) : option (list Row) :=
  if valid_fraction fraction then Some (sampled fraction df) else None.

Definition row_in (r : Row) (df : list Row) : bool := existsb (row_eqb r) df.

Fixpoint distinct_rows (df : list Row) : list Row :=
  match df with
  | [] => []
  | r :: rest => r :: filter (fun x => negb (row_eqb r x)) (distinct_rows rest)
  end.

(** [left.subtract(right)]: the distinct rows of [left] that are not in
    [right]. *)
Definition subtract (left right : list Row) : list Row :=
  distinct_rows (filter (fun r => negb (row_in r right)) left).

Definition split_train_test (model_df : list Row) (fraction : Q)
  : option (list Row * list Row) :=
  match sampleBy fraction model_df with
  | Some train =>
      let test := subtract model_df train in
      Some (train, test)
  | None => None
  end.
End SplitTrainTest.

(** ** Binary and numerical columns *)

Inductive DataType : Type :=
| IntegerType
| LongType
| DoubleType
| StringType.

Definition is_IntegerType (t : DataType) : bool :=
  match t with
  | IntegerType => true
  | _ => false
  end.

(** [[field.name for field in model_df.schema.fields
      if field.dataType != IntegerType()]] *)
Definition num_cols (schema : list (string * DataType)) : list string :=
  map fst (filter (fun field => negb (is_IntegerType (snd field))) schema).

(** [[col for col in model_df.columns if col not in num_cols + ['Churn']]] *)
Definition bin_cols (schema : list (string * DataType)) : list string :=
  filter (fun c => negb (mems c (num_cols schema ++ ["Churn"]))) (map fst schema).

(** [features = bin_cols + num_cols] *)
Definition features (schema : list (string * DataType)) : list string :=
  bin_cols schema ++ num_cols schema.

(** * Specification-level notions *)

(** ** Entity histories and raw counts *)

(** The order of a timestamp-sorted frame. *)
Definition ts_le {R : Type} (tsf : R -> Z) (a b : R) : Prop := tsf a <= tsf b.

(** The entity history: the user's rows ordered by timestamp. *)
Definition history (df : list Labeled) (u : string) : list Labeled :=
  orderBy lts (group df u).


(** ** Example logs *)

(** Three users; user 1 cancels. *)
Definition log3 : list Event :=
  [ mkEvent "1" 10 "NextSong" (Some 1) 1;
    mkEvent "2" 20 "NextSong" (Some 2) 7;
    mkEvent "1" 30 "Cancellation Confirmation" (Some 1) 1;
    mkEvent "3" 40 "Thumbs Up" (Some 3) 9;
    mkEvent "2" 50 "Home" (Some 2) 8 ].

(** User A registers at 50, after the first timestamp of the log. *)
Definition start_log : list Labeled :=
  [ mkLabeled (mkEvent "A" 100 "NextSong" (Some 50) 1) (Some 0);
    mkLabeled (mkEvent "B" 10 "Home" (Some 5) 2) (Some 0);
    mkLabeled (mkEvent "A" 200 "Thumbs Up" (Some 50) 1) (Some 0) ].

Definition start_row : Labeled :=
  mkLabeled (mkEvent "A" 100 "NextSong" (Some 50) 1) (Some 0).

(** User A ends with a cancellation, user B does not. *)
Definition end_log : list Labeled :=
  [ mkLabeled (mkEvent "A" 100 "NextSong" (Some 50) 1) (Some 1);
    mkLabeled (mkEvent "B" 10 "Home" (Some 5) 2) (Some 0);
    mkLabeled (mkEvent "A" 200 "Cancellation Confirmation" (Some 50) 1) (Some 1);
    mkLabeled (mkEvent "B" 300 "NextSong" (Some 5) 3) (Some 0) ].

Definition end_row : Labeled :=
  mkLabeled (mkEvent "A" 100 "NextSong" (Some 50) 1) (Some 1).

(** Timestamps one day apart. *)
Definition rate_log : list Labeled :=
  [ mkLabeled (mkEvent "B" 1000 "Home" (Some 5) 2) (Some 0);
    mkLabeled (mkEvent "A" 86400000 "NextSong" (Some 5000) 1) (Some 1);
    mkLabeled (mkEvent "A" 172800000 "NextSong" (Some 5000) 1) (Some 1);
    mkLabeled (mkEvent "A" 259200000 "Cancellation Confirmation" (Some 5000) 1) (Some 1);
    mkLabeled (mkEvent "B" 345600000 "NextSong" (Some 5) 3) (Some 0) ].

(** ** Connectivity in the graph of a sparse matrix *)

Section Connectivity.
Variable n : nat.
Variable csgraph : nat -> nat -> Z.

(** [connected i j]: there is a path from node [i] to node [j]. *)
Inductive connected : nat -> nat -> Prop :=
| connected_refl (i : nat) : (i < n)%nat -> connected i i
| connected_step (i j k : nat) :
    connected i j -> (k < n)%nat -> linked csgraph j k = true -> connected i k.

(** The nodes a round of the traversal adds. *)
Definition frontier (seen : list nat) : list nat :=
  filter (fun j => negb (memb j seen) && existsb (fun i => linked csgraph i j) seen)
         (seq 0 n).

(** A set of nodes that no edge leaves. *)
Definition closed (seen : list nat) : Prop :=
  forall i j, In i seen -> (j < n)%nat -> linked csgraph i j = true -> In j seen.

(** What holds of the labels given so far: they are below the next label,
    two labelled nodes share a label exactly when they are connected, and a
    node connected to a labelled node is labelled. *)
Definition labelling_ok (next : nat) (labelled : list (nat * nat)) : Prop :=
  (forall j l, In (j, l) labelled -> (l < next)%nat)
  /\ (forall j l j' l', In (j, l) labelled -> In (j', l') labelled ->
                        (l = l' <-> connected j j'))
  /\ (forall j l j', In (j, l) labelled -> connected j j' ->
                     exists l', In (j', l') labelled).
End Connectivity.

(** The step of [idxmax]: a later row replaces the best one only when it is
    strictly greater. *)
Definition pick (best y : string * Q) : string * Q :=
  if Qgtb (snd y) (snd best) then y else best.

(** ** The high-correlation graph of a feature table *)

Section ReducerSpec.
Context {Column : Type}.
Variable corr : Column -> Column -> Q.

(** Two columns, given by their positions, are adjacent when they are
    distinct and the absolute value of their correlation exceeds the
    threshold. *)
Definition adjacent (df : DataFrame) (threshold : Q) (i j : nat) : Prop :=
  i <> j
  /\ ((threshold < Qabs (corr_values corr df i j))%Q
      \/ (threshold < Qabs (corr_values corr df j i))%Q).

(** Two columns lie in the same connected component of the graph. *)
Inductive same_component (df : DataFrame) (threshold : Q) : nat -> nat -> Prop :=
| same_component_refl (i : nat) :
    (i < List.length df)%nat -> same_component df threshold i i
| same_component_step (i j k : nat) :
    same_component df threshold i j -> (k < List.length df)%nat ->
    adjacent df threshold j k -> same_component df threshold i k.

(** The column at position [i] belongs to a redundant group: a connected
    component with at least two columns. *)
Definition in_redundant_group (df : DataFrame) (threshold : Q) (i : nat) : Prop :=
  exists j, j <> i /\ same_component df threshold i j.

(** The column the loop body keeps for a group: the [idxmax] of the label
    column of the correlation frame over the rows of the group. *)
Definition keeper (df : DataFrame) (label : string) (col_name_list : list string)
  : string :=
  match idxmax (map (fun r => (r, cell corr df r label)) col_name_list) with
  | Ok k => k
  | Raise _ => ""
  end.
End ReducerSpec.

Section ReducerAux.
Context {Column : Type}.
Variable corr : Column -> Column -> Q.

(** The name of the column at position [i]. *)
Definition name_at (df : @DataFrame Column) (i : nat) : string :=
  nth i (columns df) "".

(** The positions of the columns that carry component label [l]. *)
Definition group_positions (df : DataFrame) (threshold : Q) (l : nat) : list nat :=
  filter (fun i => Nat.eqb (nth i (corr_labels corr df threshold) O) l)
         (seq 0 (List.length df)).

(** Whether the column at position [i] has a neighbour in the graph. *)
Definition has_neighbour (df : DataFrame) (threshold : Q) (i : nat) : bool :=
  existsb (fun j => negb (Nat.eqb i j)
                    && (Qgtb (Qabs (corr_values corr df i j)) threshold
                        || Qgtb (Qabs (corr_values corr df j i)) threshold))
          (seq 0 (List.length df)).

(** Everything the loop appends to [cols_to_drop]. *)
Definition dropped (df : DataFrame) (label : string) (threshold : Q) : list string :=
  List.concat
    (map (fun g => list_remove (keeper corr df label g) g)
         (map (group_columns corr df threshold) (high_corr_labels corr df threshold))).
End ReducerAux.

(** ** Example tables

    In the examples a column is identified by its index in a correlation
    matrix written row by row. *)

Definition matrix_corr (m : list (list Q)) (i j : nat) : Q :=
  nth j (nth i m []) 0%Q.

(** Three features in a chain: A-B and B-C are highly correlated, A-C is
    not, and B is the most correlated with the label. *)
Definition chain_matrix : list (list Q) :=
  [ [1;   0.4; 0.5; 0.4];
    [0.4; 1;   0.9; 0.7];
    [0.5; 0.9; 1;   0.9];
    [0.4; 0.7; 0.9; 1] ]%Q.

Definition chain_table : @DataFrame nat :=
  [ ("Churn", 0); ("A", 1); ("B", 2); ("C", 3) ]%nat.

(** Two features that are highly correlated with each other and negatively
    correlated with the label, A more strongly than B. *)
Definition negative_matrix : list (list Q) :=
  [ [1;    -0.8; -0.5];
    [-0.8; 1;    0.9];
    [-0.5; 0.9;  1] ]%Q.

Definition negative_table : @DataFrame nat :=
  [ ("Churn", 0); ("A", 1); ("B", 2) ]%nat.

(** A feature that equals the label and stands before it in the table. *)
Definition copy_matrix : list (list Q) := [ [1; 1]; [1; 1] ]%Q.

Definition copy_table : @DataFrame nat := [ ("A", 0); ("Churn", 1) ]%nat.

(** A table without any pair of highly correlated columns. *)
Definition plain_matrix : list (list Q) := [ [1; 0.4]; [0.4; 1] ]%Q.

Definition plain_table : @DataFrame nat := [ ("Churn", 0); ("A", 1) ]%nat.


(** ** Users of a log *)

(** The user has an event in the log. *)
Definition is_user (df : list Event) (u : string) : Prop :=
  exists e, In e df /\ userId e = u.

(** The user has a cancellation confirmation in the log. *)
Definition has_cancellation (df : list Event) (u : string) : Prop :=
  exists e, In e df /\ userId e = u /\ page e = terminal_action.

Definition has_cancellationb (df : list Event) (u : string) : bool :=
  existsb (fun e => String.eqb (userId e) u && String.eqb (page e) terminal_action) df.

(** The count shown for a label value, 0 when the value has no row. *)
Definition count_of (v : option Z) (counts : list (option Z * nat)) : nat :=
  match find (fun p => label_eqb (fst p) v) counts with
  | Some p => snd p
  | None => O
  end.

(** A user who registers after the start of the log and whose only event
    is the cancellation. *)
Definition instant_log : list Labeled :=
  [ mkLabeled (mkEvent "B" 10 "Home" (Some 5) 2) (Some 0);
    mkLabeled (mkEvent "A" 100 "Cancellation Confirmation" (Some 50) 1) (Some 1) ].

(** A raw log with an unregistered visitor. *)
Definition raw_log : list RawEvent :=
  [ mkRawEvent (mkEvent "" 5 "Home" None 1) None;
    mkRawEvent (mkEvent "7" 86400010 "NextSong" (Some 10) 2)
               (Some "Boston-Cambridge-Newton, MA-NH");
    mkRawEvent (mkEvent "7" 172800010 "Thumbs Up" (Some 10) 2)
               (Some "Boston-Cambridge-Newton, MA-NH") ].

(** ** Strings *)

(** [sep in s] *)
Fixpoint occurs (sep s : string) : bool :=
  String.prefix sep s
  || match s with
     | EmptyString => false
     | String _ s' => occurs sep s'
     end.

(** [c in s] for a character. *)
Fixpoint has_char (c : Ascii.ascii) (s : string) : bool :=
  match s with
  | EmptyString => false
  | String d s' => Ascii.eqb c d || has_char c s'
  end.

(** ** A table to split *)

(** Rows of a user id and a label; the last row occurs twice and one row
    carries a label outside the two strata. *)
Definition split_rows : list (Z * option Z) :=
  [ (1, Some 0); (2, Some 1); (3, Some 2); (4, Some 0); (5, None); (4, Some 0) ].

Definition split_label (r : Z * option Z) : option Z := snd r.

Definition split_row_eqb (a b : Z * option Z) : bool :=
  (fst a =? fst b) && label_eqb (snd a) (snd b).

(** Draws that alternate between a low and a high value. *)
Definition split_rand (i : nat) : Q :=
  if Nat.even i then 1 # 4 else 9 # 10.
(** * Properties of the labeler and the feature builder *)

(** ** Aggregates *)

Lemma fold_left_max_spec (xs : list Z) (x : Z) :
  let m := fold_left Z.max xs x in
  (m = x \/ In m xs) /\ x <= m /\ (forall y, In y xs -> y <= m).
Proof.
  revert x; induction xs as [|a xs IH]; intros x; simpl.
  - repeat split; auto; try lia; intros y [].
  - destruct (IH (Z.max x a)) as ([Hm | Hm] & Hle & Hall).
    + repeat split.
      * destruct (Z.max_spec x a) as [[_ E] | [_ E]]; rewrite E in Hm;
          simpl; intuition congruence.
      * lia.
      * intros y [<- | Hy]; [lia | auto].
    + repeat split; auto; try lia.
      intros y [<- | Hy]; [lia | auto].
Qed.

Lemma fold_left_min_spec (xs : list Z) (x : Z) :
  let m := fold_left Z.min xs x in
  (m = x \/ In m xs) /\ m <= x /\ (forall y, In y xs -> m <= y).
Proof.
  revert x; induction xs as [|a xs IH]; intros x; simpl.
  - repeat split; auto; try lia; intros y [].
  - destruct (IH (Z.min x a)) as ([Hm | Hm] & Hle & Hall).
    + repeat split.
      * destruct (Z.min_spec x a) as [[_ E] | [_ E]]; rewrite E in Hm;
          simpl; intuition congruence.
      * lia.
      * intros y [<- | Hy]; [lia | auto].
    + repeat split; auto; try lia.
      intros y [<- | Hy]; [lia | auto].
Qed.

Lemma sql_max_spec (l : list Z) (m : Z) :
  sql_max l = Some m <-> In m l /\ (forall y, In y l -> y <= m).
Proof.
  destruct l as [|x xs]; simpl.
  - split; [discriminate | intros [[] _]].
  - pose proof (fold_left_max_spec xs x) as (Hin & Hle & Hall); simpl in *.
    split.
    + intros E; injection E as <-. split.
      * destruct Hin as [-> | H]; auto.
      * intros y [<- | Hy]; auto.
    + intros [Hm Hub]. f_equal.
      assert (fold_left Z.max xs x <= m).
      { apply Hub. destruct Hin as [-> | H]; auto. }
      assert (m <= fold_left Z.max xs x).
      { destruct Hm as [<- | Hm]; auto. }
      lia.
Qed.

Lemma sql_min_spec (l : list Z) (m : Z) :
  sql_min l = Some m <-> In m l /\ (forall y, In y l -> m <= y).
Proof.
  destruct l as [|x xs]; simpl.
  - split; [discriminate | intros [[] _]].
  - pose proof (fold_left_min_spec xs x) as (Hin & Hle & Hall); simpl in *.
    split.
    + intros E; injection E as <-. split.
      * destruct Hin as [-> | H]; auto.
      * intros y [<- | Hy]; auto.
    + intros [Hm Hlb]. f_equal.
      assert (m <= fold_left Z.min xs x).
      { apply Hlb. destruct Hin as [-> | H]; auto. }
      assert (fold_left Z.min xs x <= m).
      { destruct Hm as [<- | Hm]; auto. }
      lia.
Qed.

Lemma sql_max_some (l : list Z) : l <> [] -> exists m, sql_max l = Some m.
Proof. destruct l; [congruence | simpl; eauto]. Qed.

Lemma sql_min_some (l : list Z) : l <> [] -> exists m, sql_min l = Some m.
Proof. destruct l; [congruence | simpl; eauto]. Qed.

Lemma sql_last_map {A B : Type} (f : A -> B) (l : list A) :
  sql_last (map f l) = option_map f (sql_last l).
Proof.
  induction l as [|a [|b l] IH]; simpl in *; auto.
Qed.

Lemma sql_last_In {A : Type} (l : list A) (x : A) :
  sql_last l = Some x -> In x l.
Proof.
  induction l as [|a [|b l] IH]; simpl in *; try discriminate.
  - intros E; injection E; auto.
  - intros E; right; auto.
Qed.

Lemma sql_last_some {A : Type} (l : list A) :
  l <> [] -> exists x, sql_last l = Some x.
Proof.
  induction l as [|a [|b l] IH]; simpl in *; intros H; try congruence; eauto.
  apply IH; discriminate.
Qed.



(** ** Windows: the ordered partition is a sorted rearrangement of the partition *)

Lemma partitionBy_In {R : Type} (uid : R -> string) (u : string) (df : list R) (r : R) :
  In r (partitionBy uid u df) <-> In r df /\ uid r = u.
Proof.
  unfold partitionBy. rewrite filter_In, String.eqb_eq. tauto.
Qed.

Lemma insert_by_ts_In {R : Type} (tsf : R -> Z) (r x : R) (l : list R) :
  In x (insert_by_ts tsf r l) <-> x = r \/ In x l.
Proof.
  induction l as [|a l IH]; simpl.
  - intuition.
  - destruct (tsf r <=? tsf a); simpl; rewrite ?IH; intuition.
Qed.

Lemma orderBy_In {R : Type} (tsf : R -> Z) (x : R) (l : list R) :
  In x (orderBy tsf l) <-> In x l.
Proof.
  induction l as [|a l IH]; simpl; [tauto|].
  rewrite insert_by_ts_In, IH. intuition.
Qed.

Lemma insert_by_ts_sorted {R : Type} (tsf : R -> Z) (r : R) (l : list R) :
  StronglySorted (ts_le tsf) l -> StronglySorted (ts_le tsf) (insert_by_ts tsf r l).
Proof.
  induction 1 as [|a l Hs IH Hall]; simpl.
  - constructor; constructor.
  - destruct (tsf r <=? tsf a) eqn:E.
    + apply Z.leb_le in E. constructor.
      * constructor; auto.
      * constructor; [exact E|].
        rewrite Forall_forall in *. intros y Hy.
        specialize (Hall y Hy). unfold ts_le in *. lia.
    + apply Z.leb_gt in E. constructor; auto.
      rewrite Forall_forall in *. intros y Hy.
      apply insert_by_ts_In in Hy as [-> | Hy]; [unfold ts_le; lia | auto].
Qed.

Lemma orderBy_sorted {R : Type} (tsf : R -> Z) (l : list R) :
  StronglySorted (ts_le tsf) (orderBy tsf l).
Proof.
  induction l as [|a l IH]; simpl; [constructor|].
  now apply insert_by_ts_sorted.
Qed.

Lemma sorted_first_least {R : Type} (tsf : R -> Z) (l : list R) (x : R) :
  StronglySorted (ts_le tsf) l -> sql_first l = Some x ->
  forall y, In y l -> tsf x <= tsf y.
Proof.
  intros Hs E y Hy. destruct l as [|a l]; simpl in E; [discriminate|].
  injection E as ->. inversion Hs as [|? ? _ Hall]; subst.
  destruct Hy as [<- | Hy]; [lia|].
  rewrite Forall_forall in Hall. exact (Hall y Hy).
Qed.

Lemma sorted_last_greatest {R : Type} (tsf : R -> Z) (l : list R) (x : R) :
  StronglySorted (ts_le tsf) l -> sql_last l = Some x ->
  forall y, In y l -> tsf y <= tsf x.
Proof.
  induction 1 as [|a l Hs IH Hall]; simpl; [discriminate|].
  destruct l as [|b l].
  - intros E y [<- | []]. injection E as ->. lia.
  - intros E y [<- | Hy].
    + rewrite Forall_forall in Hall. apply Hall. now apply sql_last_In.
    + now apply IH.
Qed.

(** Every row of the frame belongs to the same user, and the frame holds
    exactly that user's rows. *)
Lemma userWindow_In {R : Type} (uid : R -> string) (tsf : R -> Z)
      (df : list R) (r x : R) :
  In x (userWindow uid tsf df r) <-> In x df /\ uid x = uid r.
Proof.
  unfold userWindow. rewrite orderBy_In, partitionBy_In. tauto.
Qed.

Lemma userWindow_same_user {R : Type} (uid : R -> string) (tsf : R -> Z)
      (df : list R) (r r' : R) :
  uid r = uid r' -> userWindow uid tsf df r = userWindow uid tsf df r'.
Proof. unfold userWindow; now intros ->. Qed.

(** ** Labeler *)

Lemma label_data_events (df : list Event) : map event (label_data df) = df.
Proof.
  unfold label_data, churn_flags. rewrite !map_map. simpl.
  now rewrite map_id.
Qed.

(** The flags a row's window ranges over: those of the events of its user. *)
Lemma window_flags (df : list Event) (x : Event * Z) (v : Z) :
  In v (map snd (userWindow fuid fts (churn_flags df) x)) <->
  exists e, In e df /\ userId e = fuid x
            /\ v = when01 (String.eqb (page e) terminal_action).
Proof.
  rewrite in_map_iff. split.
  - intros ([e z] & <- & H). apply userWindow_In in H as [H Hu].
    unfold churn_flags in H. apply in_map_iff in H as (e' & E & He').
    injection E as <- <-. exists e'. auto.
  - intros (e & He & Hu & ->).
    exists (e, when01 (String.eqb (page e) terminal_action)). split; auto.
    apply userWindow_In. split; auto.
    unfold churn_flags. apply in_map_iff. eauto.
Qed.

Lemma label_data_row (df : list Event) (r : Labeled) :
  In r (label_data df) ->
  In (event r) df /\
  Churn r = sql_max (map snd (userWindow fuid fts (churn_flags df)
                       (event r, when01 (String.eqb (page (event r)) terminal_action)))).
Proof.
  unfold label_data. intros H. apply in_map_iff in H as ([e z] & <- & H).
  simpl. unfold churn_flags in H. apply in_map_iff in H as (e' & E & He').
  injection E as <- <-. split; auto.
Qed.



(** C10: two rows of the labeled log that belong to the same user carry the
    same label. *)
Theorem label_broadcast (df : list Event) (r1 r2 : Labeled) :
  In r1 (label_data df) -> In r2 (label_data df) ->
  userId (event r1) = userId (event r2) ->
  Churn r1 = Churn r2.
Proof.
  intros H1 H2 Hu.
  apply label_data_row in H1 as [_ ->]. apply label_data_row in H2 as [_ ->].
  f_equal. f_equal. apply userWindow_same_user. exact Hu.
Qed.

Lemma label_broadcast_witness :
  Churn (mkLabeled (mkEvent "1" 10 "NextSong" (Some 1) 1) (Some 1)) =
  Churn (mkLabeled (mkEvent "1" 30 "Cancellation Confirmation" (Some 1) 1) (Some 1)).
Proof.
  apply (label_broadcast log3); vm_compute; auto.
Defined.

(** ** Feature builder: the observation window *)

Lemma userWindow_history (df : list Labeled) (r : Labeled) :
  userWindow luid lts df r = history df (luid r).
Proof. reflexivity. Qed.

Lemma history_In (df : list Labeled) (u : string) (x : Labeled) :
  In x (history df u) <-> In x df /\ luid x = u.
Proof. unfold history, group. rewrite orderBy_In, partitionBy_In. tauto. Qed.

Lemma history_nonempty (df : list Labeled) (r : Labeled) :
  In r df -> history df (luid r) <> [].
Proof.
  intros Hr E. assert (H : In r (history df (luid r))) by (apply history_In; auto).
  rewrite E in H. destruct H.
Qed.

Lemma obs_start_default_spec (df : list Labeled) (r : Labeled) :
  In r df ->
  exists gmin, obs_start_default df = Some gmin
               /\ (exists x, In x df /\ lts x = gmin)
               /\ (forall x, In x df -> gmin <= lts x).
Proof.
  intros Hr. unfold obs_start_default.
  destruct (sql_min_some (map lts df)) as [m Hm].
  { destruct df; [destruct Hr | discriminate]. }
  exists m. split; auto. apply sql_min_spec in Hm as [Hin Hlb]. split.
  - apply in_map_iff in Hin as (x & <- & Hx). eauto.
  - intros x Hx. apply Hlb. now apply in_map.
Qed.

Lemma obs_end_default_spec (df : list Labeled) (r : Labeled) :
  In r df ->
  exists gmax, obs_end_default df = Some gmax
               /\ (exists x, In x df /\ lts x = gmax)
               /\ (forall x, In x df -> lts x <= gmax).
Proof.
  intros Hr. unfold obs_end_default.
  destruct (sql_max_some (map lts df)) as [m Hm].
  { destruct df; [destruct Hr | discriminate]. }
  exists m. split; auto. apply sql_max_spec in Hm as [Hin Hub]. split.
  - apply in_map_iff in Hin as (x & <- & Hx). eauto.
  - intros x Hx. apply Hub. now apply in_map.
Qed.

(** The first timestamp of the ordered frame is the user's earliest one. *)
Lemma first_ts_earliest (df : list Labeled) (r : Labeled) :
  In r df ->
  exists f, sql_first (map lts (userWindow luid lts df r)) = Some (lts f)
            /\ In f df /\ luid f = luid r
            /\ (forall g, In g df -> luid g = luid r -> lts f <= lts g).
Proof.
  intros Hr. rewrite userWindow_history.
  pose proof (history_nonempty df r Hr) as Hne.
  pose proof (orderBy_sorted lts (group df (luid r))) as Hs.
  fold (history df (luid r)) in Hs.
  destruct (history df (luid r)) as [|f l] eqn:E; [congruence|].
  exists f. simpl. split; auto.
  assert (Hf : In f (history df (luid r))) by (rewrite E; left; auto).
  apply history_In in Hf as [Hf Hu]. repeat split; auto.
  intros g Hg Hgu.
  apply (sorted_first_least lts (f :: l) f Hs eq_refl).
  rewrite <- E. apply history_In. auto.
Qed.

(** The last row of the ordered frame is a latest event of the user. *)
Lemma final_event_latest (df : list Labeled) (r : Labeled) :
  In r df ->
  exists f, sql_last (history df (luid r)) = Some f
            /\ In f df /\ luid f = luid r
            /\ (forall g, In g df -> luid g = luid r -> lts g <= lts f).
Proof.
  intros Hr.
  destruct (sql_last_some (history df (luid r)) (history_nonempty df r Hr)) as [f Hf].
  exists f. split; auto.
  pose proof (sql_last_In _ _ Hf) as Hin. apply history_In in Hin as [Hin Hu].
  repeat split; auto. intros g Hg Hgu.
  apply (sorted_last_greatest lts (history df (luid r)) f); auto.
  - apply orderBy_sorted.
  - apply history_In. auto.
Qed.

(** C2 as stated fails: user A registered at 50, after the global minimum
    timestamp 10, yet the window starts at A's first event, 100, not at the
    registration time. *)
Lemma obs_start_not_registration :
  In start_row start_log
  /\ registration (event start_row) = Some 50
  /\ obs_start_default start_log = Some 10
  /\ 50 > 10
  /\ obs_start start_log start_row = Some 100
  /\ obs_start start_log start_row <> registration (event start_row).
Proof.
  repeat split; try reflexivity.
  - left; reflexivity.
  - vm_compute. discriminate.
Qed.

(** C2, amended: the window start of a row is the earliest event timestamp
    of its user when the row's registration timestamp is greater than the
    global minimum timestamp, and the global minimum otherwise (also when
    the registration timestamp is null). *)
Theorem obs_start_first_event_or_default (df : list Labeled) (r : Labeled) :
  In r df ->
  exists gmin,
    obs_start_default df = Some gmin
    /\ (forall x, In x df -> gmin <= lts x)
    /\ ((exists reg, registration (event r) = Some reg /\ reg > gmin) ->
        exists f, obs_start df r = Some (lts f)
                  /\ In f df /\ luid f = luid r
                  /\ (forall g, In g df -> luid g = luid r -> lts f <= lts g))
    /\ ((forall reg, registration (event r) = Some reg -> reg <= gmin) ->
        obs_start df r = Some gmin).
Proof.
  intros Hr.
  destruct (obs_start_default_spec df r Hr) as (gmin & Hd & _ & Hlb).
  exists gmin. repeat split; auto.
  - intros (reg & Hreg & Hgt).
    destruct (first_ts_earliest df r Hr) as (f & Hf & Hin & Hu & Hmin).
    exists f. repeat split; auto.
    unfold obs_start. rewrite Hreg, Hd.
    apply Z.gtb_gt in Hgt as ->. exact Hf.
  - intros Hle. unfold obs_start. rewrite Hd.
    destruct (registration (event r)) as [reg|]; auto.
    specialize (Hle reg eq_refl).
    destruct (reg >? gmin) eqn:E; auto.
    apply Z.gtb_gt in E. lia.
Qed.

Lemma obs_start_first_event_or_default_witness :
  exists gmin,
    obs_start_default start_log = Some gmin
    /\ (forall x, In x start_log -> gmin <= lts x)
    /\ ((exists reg, registration (event start_row) = Some reg /\ reg > gmin) ->
        exists f, obs_start start_log start_row = Some (lts f)
                  /\ In f start_log /\ luid f = luid start_row
                  /\ (forall g, In g start_log -> luid g = luid start_row -> lts f <= lts g))
    /\ ((forall reg, registration (event start_row) = Some reg -> reg <= gmin) ->
        obs_start start_log start_row = Some gmin).
Proof.
  apply (obs_start_first_event_or_default start_log start_row).
  left; reflexivity.
Defined.

(** C6: the window end of a row is the timestamp of the final event of its
    user's history when that event's action is ['Cancellation Confirmation'],
    and the global maximum timestamp otherwise; the final event carries the
    user's greatest timestamp. *)
Theorem obs_end_last_event_or_default (df : list Labeled) (r : Labeled) :
  In r df ->
  exists f gmax,
    sql_last (history df (luid r)) = Some f
    /\ In f df /\ luid f = luid r
    /\ (forall g, In g df -> luid g = luid r -> lts g <= lts f)
    /\ obs_end_default df = Some gmax
    /\ (forall x, In x df -> lts x <= gmax)
    /\ (page (event f) = terminal_action -> obs_end df r = Some (lts f))
    /\ (page (event f) <> terminal_action -> obs_end df r = Some gmax).
Proof.
  intros Hr.
  destruct (final_event_latest df r Hr) as (f & Hf & Hin & Hu & Hmax).
  destruct (obs_end_default_spec df r Hr) as (gmax & Hd & _ & Hub).
  exists f, gmax. repeat split; auto.
  - intros Hp. unfold obs_end, end_state.
    rewrite userWindow_history, !sql_last_map, Hf. simpl.
    rewrite Hp, String.eqb_refl. reflexivity.
  - intros Hp. unfold obs_end, end_state.
    rewrite userWindow_history, !sql_last_map, Hf. simpl.
    destruct (String.eqb (page (event f)) terminal_action) eqn:E; auto.
    apply String.eqb_eq in E. contradiction.
Qed.

Lemma obs_end_last_event_or_default_witness :
  exists f gmax,
    sql_last (history end_log (luid end_row)) = Some f
    /\ In f end_log /\ luid f = luid end_row
    /\ (forall g, In g end_log -> luid g = luid end_row -> lts g <= lts f)
    /\ obs_end_default end_log = Some gmax
    /\ (forall x, In x end_log -> lts x <= gmax)
    /\ (page (event f) = terminal_action -> obs_end end_log end_row = Some (lts f))
    /\ (page (event f) <> terminal_action -> obs_end end_log end_row = Some gmax).
Proof.
  apply (obs_end_last_event_or_default end_log end_row).
  left; reflexivity.
Defined.

(** ** Feature builder: the emitted rows *)

Lemma build_features_rows (df : list Labeled) (row : Cols) :
  In row (build_features df) <-> exists u, In u (users df) /\ row = user_row df u.
Proof.
  unfold build_features. rewrite in_map_iff. split; intros (u & H1 & H2); eauto.
Qed.

Lemma users_In (df : list Labeled) (u : string) :
  In u (users df) <-> exists r, In r df /\ luid r = u.
Proof.
  unfold users. rewrite nodup_In, in_map_iff. split; intros (r & H1 & H2); eauto.
Qed.

(** One row per user. *)
Lemma users_NoDup (df : list Labeled) : NoDup (users df).
Proof. apply NoDup_nodup. Qed.

(** The columns of the row after the chain of [withColumn]s and the [drop]. *)
Lemma finish_user_explicit (l o c1 c2 c3 c4 c5 c6 c7 c8 c9 c10 rd sd : option Q) :
  finish_user
    [ ("Churn", l); ("obsDays", o);
      ("nSongs", c1); ("nThumbsUp", c2); ("nThumbsDown", c3); ("nUpgrade", c4);
      ("nDowngrade", c5); ("nAddFriend", c6); ("nAddPlaylist", c7);
      ("nAdvert", c8); ("nHelp", c9); ("nError", c10);
      ("registDuration", rd); ("avgSessionDuration", sd) ]
  = [ ("Churn", l); ("registDuration", rd); ("avgSessionDuration", sd);
      ("avgDailySongs", sql_div c1 o); ("avgDailyThumbsUp", sql_div c2 o);
      ("avgDailyThumbsDown", sql_div c3 o); ("avgDailyUpgrade", sql_div c4 o);
      ("avgDailyDowngrade", sql_div c5 o); ("avgDailyAddFriend", sql_div c6 o);
      ("avgDailyAddPlaylist", sql_div c7 o); ("avgDailyAdvert", sql_div c8 o);
      ("avgDailyHelp", sql_div c9 o); ("avgDailyError", sql_div c10 o) ].
Proof. reflexivity. Qed.

(** The label is the first column of every emitted row. *)
Lemma user_row_columns (df : list Labeled) (u : string) :
  map fst (user_row df u) =
  [ "Churn"; "registDuration"; "avgSessionDuration";
    "avgDailySongs"; "avgDailyThumbsUp"; "avgDailyThumbsDown"; "avgDailyUpgrade";
    "avgDailyDowngrade"; "avgDailyAddFriend"; "avgDailyAddPlaylist";
    "avgDailyAdvert"; "avgDailyHelp"; "avgDailyError" ].
Proof.
  unfold user_row, joined_user, agg_user. cbn [map count_columns app fst].
  rewrite finish_user_explicit. reflexivity.
Qed.





(** * Properties of the redundancy reducer *)

Local Open Scope nat_scope.

(** ** Connected components *)

Lemma memb_In (x : nat) (l : list nat) : memb x l = true <-> In x l.
Proof.
  unfold memb. rewrite existsb_exists. split.
  - intros (y & Hy & E). apply Nat.eqb_eq in E. now subst.
  - intros H. exists x. split; auto. apply Nat.eqb_refl.
Qed.

Lemma memb_not_In (x : nat) (l : list nat) : memb x l = false <-> ~ In x l.
Proof.
  rewrite <- memb_In. destruct (memb x l); split; congruence.
Qed.

Lemma bounded_NoDup_length (n : nat) (l : list nat) :
  NoDup l -> (forall x, In x l -> x < n) -> List.length l <= n.
Proof.
  intros Hnd Hb. rewrite <- (length_seq n 0).
  apply NoDup_incl_length; auto.
  intros x Hx. apply in_seq. specialize (Hb x Hx). lia.
Qed.

Lemma nth_map_seq {A : Type} (f : nat -> A) (n i : nat) (d : A) :
  i < n -> nth i (map f (seq 0 n)) d = f i.
Proof.
  intros Hi. rewrite nth_indep with (d' := f 0)
    by (rewrite length_map, length_seq; exact Hi).
  rewrite map_nth, seq_nth by exact Hi. reflexivity.
Qed.

Section ComponentFacts.
Variable n : nat.
Variable csgraph : nat -> nat -> Z.

Local Abbreviation Linked := (linked csgraph).
Local Abbreviation Connected := (connected n csgraph).
Local Abbreviation Expand := (expand n csgraph).
Local Abbreviation Flood := (flood n csgraph).
Local Abbreviation Component := (component n csgraph).
Local Abbreviation Scan := (scan n csgraph).
Local Abbreviation Frontier := (frontier n csgraph).
Local Abbreviation Closed := (closed n csgraph).
Local Abbreviation Labelling_ok := (labelling_ok n csgraph).

Lemma linked_sym (i j : nat) : Linked i j = Linked j i.
Proof. unfold linked. apply orb_comm. Qed.

Lemma connected_bounded (i j : nat) : Connected i j -> i < n /\ j < n.
Proof. induction 1; tauto. Qed.

Lemma connected_trans (i j k : nat) :
  Connected i j -> Connected j k -> Connected i k.
Proof.
  intros Hij Hjk. revert Hij.
  induction Hjk as [j Hj | j m k Hjm IH Hk Hl]; intros Hij; auto.
  apply connected_step with m; auto.
Qed.

Lemma connected_sym (i j : nat) : Connected i j -> Connected j i.
Proof.
  induction 1 as [i Hi | i j k Hij IH Hk Hl].
  - now constructor.
  - apply connected_trans with j; auto.
    apply connected_step with k.
    + now constructor.
    + apply (connected_bounded i j Hij).
    + now rewrite linked_sym.
Qed.

Lemma expand_frontier (seen : list nat) : Expand seen = seen ++ Frontier seen.
Proof. reflexivity. Qed.

Lemma frontier_In (seen : list nat) (j : nat) :
  In j (Frontier seen) <->
  j < n /\ ~ In j seen /\ exists i, In i seen /\ Linked i j = true.
Proof.
  unfold frontier.
  rewrite filter_In, in_seq, andb_true_iff, negb_true_iff, memb_not_In,
    existsb_exists.
  split; intros H; repeat split; try tauto; lia.
Qed.

Lemma flood_incl (fuel : nat) (seen : list nat) : incl seen (Flood fuel seen).
Proof.
  revert seen. induction fuel as [|fuel IH]; intros seen x Hx; simpl; auto.
  apply IH. rewrite expand_frontier. apply in_or_app. now left.
Qed.

Lemma flood_sound (i : nat) (fuel : nat) (seen : list nat) :
  (forall x, In x seen -> Connected i x) ->
  forall j, In j (Flood fuel seen) -> Connected i j.
Proof.
  revert seen. induction fuel as [|fuel IH]; intros seen Hseen j Hj; simpl in Hj.
  - auto.
  - apply (IH (Expand seen)); auto.
    intros x Hx. rewrite expand_frontier in Hx.
    apply in_app_or in Hx as [Hx | Hx]; auto.
    apply frontier_In in Hx as (Hlt & _ & y & Hy & Hl).
    apply connected_step with y; auto.
Qed.

Lemma frontier_nil_closed (seen : list nat) : Frontier seen = [] -> Closed seen.
Proof.
  intros E i j Hi Hj Hl.
  destruct (memb j seen) eqn:M; [now apply memb_In|].
  apply memb_not_In in M.
  assert (H : In j (Frontier seen)) by (apply frontier_In; eauto).
  rewrite E in H. destruct H.
Qed.

Lemma flood_stable (fuel : nat) (seen : list nat) :
  Frontier seen = [] -> Flood fuel seen = seen.
Proof.
  intros E. induction fuel as [|fuel IH]; simpl; auto.
  rewrite expand_frontier, E, app_nil_r. exact IH.
Qed.

(** Each round either leaves a Closed set or adds a node. *)
Lemma flood_progress (fuel : nat) (seen : list nat) :
  Closed (Flood fuel seen) \/ List.length seen + fuel <= List.length (Flood fuel seen).
Proof.
  revert seen. induction fuel as [|fuel IH]; intros seen; simpl.
  - right. lia.
  - destruct (Frontier seen) as [|x fr] eqn:E.
    + left. rewrite expand_frontier, E, app_nil_r, (flood_stable fuel seen E).
      now apply frontier_nil_closed.
    + destruct (IH (Expand seen)) as [H | H]; [now left | right].
      assert (Hlen : List.length (Expand seen) = List.length seen + S (List.length fr))
        by (rewrite expand_frontier, E, length_app; reflexivity).
      lia.
Qed.

Lemma expand_NoDup (seen : list nat) : NoDup seen -> NoDup (Expand seen).
Proof.
  intros Hnd. rewrite expand_frontier. apply NoDup_app; auto.
  - apply NoDup_filter, seq_NoDup.
  - intros x Hx Hf. apply frontier_In in Hf. tauto.
Qed.

Lemma expand_bounded (seen : list nat) :
  (forall x, In x seen -> x < n) -> forall x, In x (Expand seen) -> x < n.
Proof.
  intros Hb x Hx. rewrite expand_frontier in Hx.
  apply in_app_or in Hx as [Hx | Hx]; auto.
  now apply frontier_In in Hx.
Qed.

Lemma flood_NoDup (fuel : nat) (seen : list nat) :
  NoDup seen -> NoDup (Flood fuel seen).
Proof.
  revert seen. induction fuel as [|fuel IH]; intros seen H; simpl; auto.
  apply IH. now apply expand_NoDup.
Qed.

Lemma flood_bounded (fuel : nat) (seen : list nat) :
  (forall x, In x seen -> x < n) -> forall x, In x (Flood fuel seen) -> x < n.
Proof.
  revert seen. induction fuel as [|fuel IH]; intros seen H; simpl; auto.
  apply IH. now apply expand_bounded.
Qed.

Lemma component_closed (i : nat) : i < n -> Closed (Component i).
Proof.
  intros Hi. unfold component.
  destruct (flood_progress n [i]) as [H | H]; auto.
  exfalso. simpl in H.
  assert (List.length (Flood n [i]) <= n).
  { apply bounded_NoDup_length.
    - apply flood_NoDup. constructor; [intros [] | constructor].
    - apply flood_bounded. intros x [<- | []]. exact Hi. }
  lia.
Qed.

Lemma closed_connected (seen : list nat) (i j : nat) :
  Closed seen -> In i seen -> Connected i j -> In j seen.
Proof.
  intros Hc Hi Hij. induction Hij as [i _ | i j k Hij IH Hk Hl]; auto.
  apply (Hc j k); auto.
Qed.

(** The traversal from [i] finds exactly the nodes Connected to [i]. *)
Lemma component_spec (i j : nat) :
  i < n -> (In j (Component i) <-> Connected i j).
Proof.
  intros Hi. split.
  - apply flood_sound. intros x [<- | []]. now constructor.
  - apply closed_connected.
    + now apply component_closed.
    + apply flood_incl. now left.
Qed.

(** *** The labelling *)

Lemma label_of_Some (labelled : list (nat * nat)) (i l : nat) :
  label_of labelled i = Some l -> In (i, l) labelled.
Proof.
  unfold label_of. destruct (find _ labelled) as [[j l']|] eqn:E; [|discriminate].
  intros H; injection H as <-. apply find_some in E as [Hin Heq].
  simpl in Heq. apply Nat.eqb_eq in Heq. now subst.
Qed.

Lemma label_of_None (labelled : list (nat * nat)) (i l : nat) :
  label_of labelled i = None -> ~ In (i, l) labelled.
Proof.
  unfold label_of. destruct (find _ labelled) as [p|] eqn:E; [discriminate|].
  intros _ Hin. pose proof (find_none _ _ E _ Hin) as H.
  simpl in H. now rewrite Nat.eqb_refl in H.
Qed.

Lemma labelling_ok_nil : Labelling_ok 0 [].
Proof. repeat split; intros; try contradiction. Qed.

Lemma new_labels_In (i next j l : nat) :
  i < n ->
  (In (j, l) (map (fun x => (x, next)) (Component i)) <-> Connected i j /\ l = next).
Proof.
  intros Hi. rewrite in_map_iff. split.
  - intros (x & E & Hx). injection E as -> ->.
    split; auto. now apply component_spec.
  - intros [Hc ->]. exists j. split; auto. now apply component_spec.
Qed.

Lemma labelling_ok_step (next : nat) (labelled : list (nat * nat)) (i : nat) :
  i < n -> Labelling_ok next labelled -> label_of labelled i = None ->
  Labelling_ok (S next)
               (labelled ++ map (fun x => (x, next)) (Component i)).
Proof.
  intros Hi (Hlt & Heq & Hcl) Hnone.
  assert (Hfresh : forall j l, In (j, l) labelled -> ~ Connected i j).
  { intros j l Hj Hc. destruct (Hcl j l i Hj (connected_sym _ _ Hc)) as [l' Hl'].
    exact (label_of_None _ _ _ Hnone Hl'). }
  repeat split.
  - intros j l Hj. apply in_app_or in Hj as [Hj | Hj].
    + specialize (Hlt j l Hj). lia.
    + apply new_labels_In in Hj as [_ ->]; auto.
  - intros E. subst l'.
    apply in_app_or in H as [H | H]; apply in_app_or in H0 as [H0 | H0].
    + now apply (Heq j l j' l).
    + apply new_labels_In in H0 as [_ ->]; auto.
      specialize (Hlt j next H). lia.
    + apply new_labels_In in H as [_ ->]; auto.
      specialize (Hlt j' next H0). lia.
    + apply new_labels_In in H as [Hc _]; auto.
      apply new_labels_In in H0 as [Hc' _]; auto.
      apply connected_trans with i; auto. now apply connected_sym.
  - intros Hc.
    apply in_app_or in H as [H | H]; apply in_app_or in H0 as [H0 | H0].
    + now apply (Heq j l j' l').
    + apply new_labels_In in H0 as [Hc' _]; auto.
      destruct (Hfresh j l H).
      apply connected_trans with j'; auto. now apply connected_sym.
    + apply new_labels_In in H as [Hc' _]; auto.
      destruct (Hfresh j' l' H0).
      apply connected_trans with j; auto.
    + apply new_labels_In in H as [_ ->]; auto.
      apply new_labels_In in H0 as [_ ->]; auto.
  - intros j l j' Hj Hc. apply in_app_or in Hj as [Hj | Hj].
    + destruct (Hcl j l j' Hj Hc) as [l' Hl']. exists l'.
      apply in_or_app. now left.
    + apply new_labels_In in Hj as [Hc' ->]; auto.
      exists next. apply in_or_app. right. apply new_labels_In; auto.
      split; auto. now apply connected_trans with j.
Qed.

Lemma scan_ok (todo : list nat) (next : nat) (labelled : list (nat * nat))
      (k : nat) (final : list (nat * nat)) :
  (forall i, In i todo -> i < n) ->
  Labelling_ok next labelled ->
  Scan todo next labelled = (k, final) ->
  Labelling_ok k final
  /\ incl labelled final
  /\ (forall i, In i todo -> exists l, In (i, l) final).
Proof.
  revert next labelled.
  induction todo as [|i rest IH]; intros next labelled Hb Hok Hscan; simpl in Hscan.
  - injection Hscan as <- <-. split; [assumption | split].
    + apply incl_refl.
    + intros i [].
  - assert (Hb' : forall x, In x rest -> x < n) by (intros x Hx; apply Hb; now right).
    destruct (label_of labelled i) as [l|] eqn:El.
    + destruct (IH next labelled Hb' Hok Hscan) as (Hok' & Hincl & Hall).
      split; [assumption | split; [assumption|]].
      intros x [<- | Hx]; auto.
      exists l. apply Hincl. now apply label_of_Some.
    + assert (Hi : i < n) by (apply Hb; now left).
      pose proof (labelling_ok_step next labelled i Hi Hok El) as Hstep.
      destruct (IH _ _ Hb' Hstep Hscan) as (Hok' & Hincl & Hall).
      split; [assumption | split].
      * intros p Hp. apply Hincl. apply in_or_app. now left.
      * intros x [<- | Hx]; auto.
        exists next. apply Hincl. apply in_or_app. right.
        apply new_labels_In; auto. split; auto. now constructor.
Qed.

(** The label array has one entry per node, and two nodes carry the same
    label exactly when they are connected. *)
Lemma connected_components_spec :
  let labels := snd (connected_components n csgraph) in
  List.length labels = n
  /\ forall i j, i < n -> j < n ->
                 (nth i labels 0 = nth j labels 0 <-> Connected i j).
Proof.
  unfold connected_components.
  destruct (Scan (seq 0 n) 0 []) as [k final] eqn:E. simpl.
  split; [now rewrite length_map, length_seq|].
  destruct (scan_ok (seq 0 n) 0 [] k final) as ((_ & Heq & _) & _ & Hall); auto.
  { intros i Hi. apply in_seq in Hi. lia. }
  { apply labelling_ok_nil. }
  assert (Hnth : forall i, i < n ->
            exists l, In (i, l) final /\
                      nth i (map (fun i => match label_of final i with
                                           | Some l => l | None => 0 end)
                                 (seq 0 n)) 0 = l).
  { intros i Hi.
    destruct (Hall i) as [l Hl]; [apply in_seq; lia|].
    destruct (label_of final i) as [l'|] eqn:El.
    - exists l'. split; [now apply label_of_Some|].
      rewrite nth_map_seq by exact Hi. now rewrite El.
    - destruct (label_of_None _ _ l El Hl). }
  intros i j Hi Hj.
  destruct (Hnth i Hi) as (li & Hli & ->). destruct (Hnth j Hj) as (lj & Hlj & ->).
  now apply Heq.
Qed.

End ComponentFacts.

(** ** The high-correlation graph *)

Lemma Qgtb_lt (a b : Q) : Qgtb a b = true <-> (b < a)%Q.
Proof.
  unfold Qgtb. rewrite negb_true_iff. split.
  - intros H. apply Qnot_le_lt. intros Hle.
    apply Qle_bool_iff in Hle. congruence.
  - intros H. destruct (Qle_bool a b) eqn:E; auto.
    apply Qle_bool_iff in E. now apply Qlt_not_le in H.
Qed.

Lemma Qgtb_le (a b : Q) : Qgtb a b = false <-> (a <= b)%Q.
Proof.
  unfold Qgtb. rewrite negb_false_iff. apply Qle_bool_iff.
Qed.

Section GraphFacts.
Context {Column : Type}.
Variable corr : Column -> Column -> Q.
Variable df : @DataFrame Column.
Variable threshold : Q.

Local Abbreviation Adjacent := (adjacent corr df threshold).
Local Abbreviation Same := (same_component corr df threshold).
Local Abbreviation Labels := (corr_labels corr df threshold).

Lemma linked_adjacent (i j : nat) :
  i <> j -> (linked (adj_mat corr df threshold) i j = true <-> Adjacent i j).
Proof.
  intros Hne. unfold linked, adj_mat, adjacent, is_high_corr.
  apply Nat.eqb_neq in Hne as Hij. rewrite Hij.
  assert (Hji : (j =? i) = false) by (apply Nat.eqb_neq; congruence).
  rewrite Hji, orb_true_iff, !negb_true_iff, !Z.eqb_neq, <- !Qgtb_lt.
  destruct (Qgtb (Qabs (corr_values corr df i j)) threshold),
           (Qgtb (Qabs (corr_values corr df j i)) threshold);
    simpl; intuition (try lia; try congruence).
Qed.

Lemma connected_same (i j : nat) :
  connected (List.length df) (adj_mat corr df threshold) i j <-> Same i j.
Proof.
  split.
  - induction 1 as [i Hi | i j k Hij IH Hk Hl].
    + now constructor.
    + destruct (Nat.eq_dec j k) as [<- | Hne]; auto.
      apply same_component_step with j; auto. now apply linked_adjacent.
  - induction 1 as [i Hi | i j k Hij IH Hk Ha].
    + now constructor.
    + apply connected_step with j; auto.
      apply linked_adjacent; auto. apply Ha.
Qed.

Lemma corr_labels_length : List.length Labels = List.length df.
Proof.
  apply (connected_components_spec (List.length df) (adj_mat corr df threshold)).
Qed.

(** Two columns carry the same component label exactly when they lie in the
    same connected component. *)
Lemma corr_labels_same (i j : nat) :
  i < List.length df -> j < List.length df ->
  (nth i Labels 0 = nth j Labels 0 <-> Same i j).
Proof.
  intros Hi Hj. rewrite <- connected_same.
  now apply (connected_components_spec (List.length df) (adj_mat corr df threshold)).
Qed.

Lemma same_component_bounded (i j : nat) :
  Same i j -> i < List.length df /\ j < List.length df.
Proof. induction 1; tauto. Qed.

Lemma same_component_sym (i j : nat) : Same i j -> Same j i.
Proof.
  intros H. apply connected_same. apply connected_sym. now apply connected_same.
Qed.

Lemma same_component_trans (i j k : nat) : Same i j -> Same j k -> Same i k.
Proof.
  intros H1 H2. apply connected_same.
  apply connected_trans with j; now apply connected_same.
Qed.

(** A column belongs to a redundant group exactly when it has a neighbour. *)
Lemma in_redundant_group_adjacent (i : nat) :
  i < List.length df ->
  (in_redundant_group corr df threshold i <->
   exists j, j < List.length df /\ Adjacent i j).
Proof.
  intros Hi. split.
  - intros (j & Hne & Hs). apply same_component_sym in Hs.
    induction Hs as [j Hj | j m k Hjm IH Hk Ha].
    + congruence.
    + exists m. split; [apply (same_component_bounded j m Hjm)|].
      destruct Ha as [Hmk Hor]. split; [congruence | tauto].
  - intros (j & Hj & Ha). exists j. split; [apply not_eq_sym, Ha|].
    apply same_component_step with i; auto. now constructor.
Qed.

End GraphFacts.

Ltac distinct_names :=
  repeat (constructor; [simpl; intuition discriminate|]); constructor.

(** ** Counting labels *)

Lemma count_occ_other (l : list nat) (v i : nat) :
  1 < count_occ Nat.eq_dec l v ->
  exists j, j <> i /\ j < List.length l /\ nth j l 0 = v.
Proof.
  revert i. induction l as [|a l IH]; intros i H; simpl in H; [lia|].
  destruct (Nat.eq_dec a v) as [-> | Hne].
  - destruct i as [|i].
    + assert (Hin : In v l) by (apply (count_occ_In Nat.eq_dec); lia).
      destruct (In_nth l v 0 Hin) as (j & Hj & Hv).
      exists (S j). simpl. repeat split; auto; lia.
    + exists 0. simpl. repeat split; auto; lia.
  - destruct (IH (pred i) H) as (j & Hj & Hlt & Hv).
    exists (S j). simpl. repeat split; auto; lia.
Qed.

Lemma count_occ_two (l : list nat) (v i j : nat) :
  i <> j -> i < List.length l -> j < List.length l ->
  nth i l 0 = v -> nth j l 0 = v ->
  1 < count_occ Nat.eq_dec l v.
Proof.
  revert i j. induction l as [|a l IH]; intros i j Hne Hi Hj Hvi Hvj; simpl in *; [lia|].
  destruct (Nat.eq_dec a v) as [-> | Ha].
  - assert (Hin : In v l).
    { destruct i as [|i], j as [|j]; try congruence.
      - rewrite <- Hvj. apply nth_In. lia.
      - rewrite <- Hvi. apply nth_In. lia.
      - rewrite <- Hvi. apply nth_In. lia. }
    apply (count_occ_In Nat.eq_dec) in Hin. lia.
  - destruct i as [|i], j as [|j]; try congruence.
    apply (IH i j); auto; lia.
Qed.

Lemma list_max_ge (l : list nat) (v : nat) : In v l -> v <= list_max l.
Proof.
  intros H. pose proof (proj1 (list_max_le l (list_max l)) (Nat.le_refl _)) as Hall.
  rewrite Forall_forall in Hall. now apply Hall.
Qed.

Lemma np_unique_In (a : list nat) (v c : nat) :
  In (v, c) (np_unique a) <-> c = count_occ Nat.eq_dec a v /\ 0 < c.
Proof.
  unfold np_unique. rewrite filter_In, in_map_iff. cbn [snd]. rewrite Nat.ltb_lt. split.
  - intros [(x & E & _) Hc]. injection E as -> <-. auto.
  - intros [-> Hc]. split; auto. exists v. split; auto.
    apply in_seq. assert (In v a) by (apply (count_occ_In Nat.eq_dec); lia).
    apply list_max_ge in H. lia.
Qed.

Lemma NoDup_map_fst_filter {A B : Type} (f : A * B -> bool) (l : list (A * B)) :
  NoDup (map fst l) -> NoDup (map fst (filter f l)).
Proof.
  induction l as [|x l IH]; simpl; intros H; [constructor|].
  inversion H as [|? ? Hnin Hnd]; subst.
  destruct (f x); simpl; auto.
  constructor; auto.
  intros Hin. apply Hnin. apply in_map_iff in Hin as (y & E & Hy).
  apply in_map_iff. exists y. split; auto. now apply filter_In in Hy.
Qed.

Lemma np_unique_NoDup (a : list nat) : NoDup (map fst (np_unique a)).
Proof.
  unfold np_unique. apply NoDup_map_fst_filter.
  rewrite map_map. cbn [fst]. rewrite map_id. apply seq_NoDup.
Qed.

Lemma combine_seq {A B : Type} (l1 : list A) (l2 : list B) (d1 : A) (d2 : B) :
  List.length l1 = List.length l2 ->
  combine l1 l2 = map (fun i => (nth i l1 d1, nth i l2 d2)) (seq 0 (List.length l1)).
Proof.
  revert l2. induction l1 as [|a l1 IH]; intros [|b l2] H; simpl in *; try lia; auto.
  f_equal. rewrite <- seq_shift, map_map. apply IH. lia.
Qed.

(** ** [idxmax] and [list.remove] *)

Lemma fold_pick_spec (rest : list (string * Q)) (x : string * Q) :
  exists s1 s2,
    x :: rest = s1 ++ fold_left pick rest x :: s2
    /\ (forall y, In y s1 -> (snd y < snd (fold_left pick rest x))%Q)
    /\ (forall y, In y s2 -> (snd y <= snd (fold_left pick rest x))%Q).
Proof.
  revert x. induction rest as [|y rest IH]; intros x; simpl.
  - exists [], []. repeat split; auto; intros y [].
  - unfold pick at 2 4 6. destruct (Qgtb (snd y) (snd x)) eqn:E.
    + apply Qgtb_lt in E. destruct (IH y) as (s1 & s2 & Hs & H1 & H2).
      exists (x :: s1), s2. split; [now rewrite Hs|]. split; auto.
      intros z [<- | Hz]; auto.
      destruct s1 as [|h s1]; simpl in Hs; injection Hs as Hh Ht.
      * now rewrite <- Hh.
      * subst h. apply Qlt_trans with (snd y); auto. apply H1. now left.
    + apply Qgtb_le in E. destruct (IH x) as (s1 & s2 & Hs & H1 & H2).
      destruct s1 as [|h s1]; simpl in Hs; injection Hs as Hh Ht.
      * exists [], (y :: s2). split; [simpl; congruence|]. split; [intros z []|].
        intros z [<- | Hz]; auto. now rewrite <- Hh.
      * subst h. exists (x :: y :: s1), s2. split; [simpl; congruence|]. split; auto.
        intros z [<- | [<- | Hz]].
        -- apply H1. now left.
        -- apply Qle_lt_trans with (snd x); auto. apply H1. now left.
        -- apply H1. now right.
Qed.

(** [idxmax] returns the first row label at which the series is maximal. *)
Lemma idxmax_spec (f : string -> Q) (g : list string) :
  g <> [] ->
  exists k g1 g2,
    idxmax (map (fun r => (r, f r)) g) = Ok k
    /\ g = g1 ++ k :: g2
    /\ (forall r, In r g1 -> (f r < f k)%Q)
    /\ (forall r, In r g2 -> (f r <= f k)%Q).
Proof.
  destruct g as [|x g]; [congruence|]. intros _. simpl.
  destruct (fold_pick_spec (map (fun r => (r, f r)) g) (x, f x)) as (s1 & s2 & Hs & H1 & H2).
  fold pick. set (best := fold_left pick (map (fun r => (r, f r)) g) (x, f x)) in *.
  change ((x, f x) :: map (fun r => (r, f r)) g)
    with (map (fun r => (r, f r)) (x :: g)) in Hs.
  apply map_eq_app in Hs as (g1 & g2' & Hg & Hg1 & Hg2).
  apply map_eq_cons in Hg2 as (k & g2 & -> & Hk & Hg2).
  exists k, g1, g2. rewrite <- Hk. simpl. repeat split; auto.
  - intros r Hr. rewrite <- Hk in H1.
    apply (H1 (r, f r)). rewrite <- Hg1. now apply (in_map (fun r => (r, f r))).
  - intros r Hr. rewrite <- Hk in H2.
    apply (H2 (r, f r)). rewrite <- Hg2. now apply (in_map (fun r => (r, f r))).
Qed.

Lemma list_remove_split (k : string) (g1 g2 : list string) :
  ~ In k g1 -> list_remove k (g1 ++ k :: g2) = g1 ++ g2.
Proof.
  induction g1 as [|x g1 IH]; simpl; intros H.
  - now rewrite String.eqb_refl.
  - destruct (String.eqb x k) eqn:E.
    + apply String.eqb_eq in E. tauto.
    + f_equal. apply IH. tauto.
Qed.

Lemma list_remove_In (k c : string) (g : list string) :
  NoDup g -> (In c (list_remove k g) <-> In c g /\ c <> k).
Proof.
  induction g as [|x g IH]; simpl; intros Hnd; [tauto|].
  inversion Hnd as [|? ? Hnin Hnd']; subst.
  destruct (String.eqb x k) eqn:E.
  - apply String.eqb_eq in E. subst x. split.
    + intros H. split; auto. congruence.
    + intros [[H | H] Hne]; congruence.
  - apply String.eqb_neq in E. simpl. rewrite (IH Hnd'). split.
    + intros [<- | [H Hne]]; auto.
    + intros [[<- | H] Hne]; auto.
Qed.

(** ** Groups of columns *)

Lemma mems_In (x : string) (l : list string) : mems x l = true <-> In x l.
Proof.
  unfold mems. rewrite existsb_exists. split.
  - intros (y & Hy & E). apply String.eqb_eq in E. now subst.
  - intros H. exists x. split; auto. apply String.eqb_refl.
Qed.

Lemma mems_not_In (x : string) (l : list string) : mems x l = false <-> ~ In x l.
Proof.
  rewrite <- mems_In. destruct (mems x l); split; congruence.
Qed.

Lemma seq_filter_split (f : nat -> bool) (a n : nat) (p1 p2 : list nat) (pk : nat) :
  filter f (seq a n) = p1 ++ pk :: p2 -> forall x, In x p2 -> pk < x.
Proof.
  revert a p1. induction n as [|n IH]; intros a p1 E x Hx; simpl in E.
  - destruct p1; discriminate.
  - destruct (f a).
    + destruct p1 as [|h p1]; simpl in E; injection E as Hh Ht.
      * subst pk. assert (H : In x (filter f (seq (S a) n))) by (rewrite Ht; exact Hx).
        apply filter_In in H as [H _]. apply in_seq in H. lia.
      * now apply (IH (S a) p1).
    + now apply (IH (S a) p1).
Qed.

Lemma NoDup_app_disjoint {A : Type} (l1 l2 : list A) (a : A) :
  NoDup (l1 ++ l2) -> In a l1 -> ~ In a l2.
Proof.
  induction l1 as [|x l1 IH]; simpl; intros Hnd Hin; [destruct Hin|].
  inversion Hnd as [|? ? Hnin Hnd']; subst.
  destruct Hin as [-> | Hin]; auto.
  intros H2. apply Hnin. apply in_or_app. now right.
Qed.

Lemma NoDup_concat_map {A B : Type} (f : A -> list B) (ls : list A) :
  NoDup ls ->
  (forall l, In l ls -> NoDup (f l)) ->
  (forall l l' x, In l ls -> In l' ls -> In x (f l) -> In x (f l') -> l = l') ->
  NoDup (List.concat (map f ls)).
Proof.
  induction ls as [|l ls IH]; simpl; intros Hnd Hf Hdisj; [constructor|].
  inversion Hnd as [|? ? Hnin Hnd']; subst.
  apply NoDup_app.
  - apply Hf. now left.
  - apply IH; auto. intros l1 l2 x H1 H2. apply Hdisj; now right.
  - intros x Hx Hc. apply in_concat in Hc as (g & Hg & Hxg).
    apply in_map_iff in Hg as (l' & <- & Hl').
    apply Hnin.
    assert (E : l = l') by (apply (Hdisj l l' x); simpl; auto).
    now rewrite E.
Qed.

Lemma find_all_false {A : Type} (f : A -> bool) (l : list A) :
  (forall x, In x l -> f x = false) -> find f l = None.
Proof.
  induction l as [|x l IH]; simpl; intros H; auto.
  rewrite (H x) by now left. apply IH. intros y Hy. apply H. now right.
Qed.

Section ReducerFacts.
Context {Column : Type}.
Variable corr : Column -> Column -> Q.

Local Abbreviation Frame := (@DataFrame Column).

Lemma columns_length (df : Frame) : List.length (columns df) = List.length df.
Proof. apply length_map. Qed.

Lemma name_at_nth_error (df : Frame) (i : nat) (c : string * Column) :
  nth_error df i = Some c -> name_at df i = fst c.
Proof.
  intros H. unfold name_at, columns.
  apply (map_nth_error fst) in H. now apply nth_error_nth.
Qed.

Lemma name_at_inj (df : Frame) (i j : nat) :
  NoDup (columns df) -> i < List.length df -> j < List.length df ->
  name_at df i = name_at df j -> i = j.
Proof.
  intros Hnd Hi Hj E. rewrite <- columns_length in Hi, Hj.
  exact (proj1 (NoDup_nth (columns df) "") Hnd i j Hi Hj E).
Qed.

Lemma lookup_nth_error (df : Frame) (i : nat) (c : string * Column) :
  NoDup (columns df) -> nth_error df i = Some c -> lookup (fst c) df = Some (snd c).
Proof.
  unfold lookup. revert i. induction df as [|x df IH]; intros i Hnd H.
  - destruct i; discriminate.
  - simpl in Hnd. inversion Hnd as [|? ? Hnin Hnd']; subst.
    destruct i as [|i]; simpl in H.
    + injection H as ->. simpl. now rewrite String.eqb_refl.
    + simpl. destruct (String.eqb (fst x) (fst c)) eqn:E.
      * apply String.eqb_eq in E. exfalso. apply Hnin. rewrite E.
        apply in_map. now apply nth_error_In in H.
      * now apply (IH i).
Qed.

Lemma group_columns_positions (df : Frame) (threshold : Q) (l : nat) :
  group_columns corr df threshold l
  = map (name_at df) (group_positions corr df threshold l).
Proof.
  unfold group_columns, group_positions, name_at.
  rewrite (combine_seq (corr_labels corr df threshold) (columns df) 0 "")
    by (now rewrite corr_labels_length, columns_length).
  rewrite filter_map_swap, map_map, corr_labels_length. reflexivity.
Qed.

Lemma group_positions_In (df : Frame) (threshold : Q) (l i : nat) :
  In i (group_positions corr df threshold l) <->
  i < List.length df /\ nth i (corr_labels corr df threshold) 0 = l.
Proof.
  unfold group_positions. rewrite filter_In, in_seq, Nat.eqb_eq.
  split; intros [H1 H2]; split; auto; lia.
Qed.

Lemma group_columns_In (df : Frame) (threshold : Q) (l : nat) (c : string) :
  In c (group_columns corr df threshold l) <->
  exists i, i < List.length df /\ name_at df i = c
            /\ nth i (corr_labels corr df threshold) 0 = l.
Proof.
  rewrite group_columns_positions, in_map_iff. split.
  - intros (i & E & Hi). apply group_positions_In in Hi. exists i. tauto.
  - intros (i & Hi & E & Hl). exists i. split; auto.
    apply group_positions_In. auto.
Qed.

Lemma group_columns_NoDup (df : Frame) (threshold : Q) (l : nat) :
  NoDup (columns df) -> NoDup (group_columns corr df threshold l).
Proof.
  intros Hnd. rewrite group_columns_positions.
  apply NoDup_map_NoDup_ForallPairs.
  - intros i j Hi Hj E. apply group_positions_In in Hi, Hj.
    apply (name_at_inj df); tauto.
  - apply NoDup_filter, seq_NoDup.
Qed.

Lemma high_corr_labels_In (df : Frame) (threshold : Q) (l : nat) :
  In l (high_corr_labels corr df threshold) <->
  1 < count_occ Nat.eq_dec (corr_labels corr df threshold) l.
Proof.
  unfold high_corr_labels. rewrite in_map_iff. split.
  - intros ([v c] & E & H). simpl in E. subst v.
    apply filter_In in H as [H Hc]. simpl in Hc. apply Nat.ltb_lt in Hc.
    apply np_unique_In in H as [-> _]. exact Hc.
  - intros H. exists (l, count_occ Nat.eq_dec (corr_labels corr df threshold) l).
    split; auto. apply filter_In. split.
    + apply np_unique_In. split; auto. lia.
    + simpl. now apply Nat.ltb_lt.
Qed.

(** A label is that of a redundant group exactly when it is the label of a
    column with a neighbour. *)
Lemma high_label_redundant (df : Frame) (threshold : Q) (i : nat) :
  i < List.length df ->
  (In (nth i (corr_labels corr df threshold) 0) (high_corr_labels corr df threshold)
   <-> in_redundant_group corr df threshold i).
Proof.
  intros Hi. rewrite high_corr_labels_In. split.
  - intros H. destruct (count_occ_other _ _ i H) as (j & Hne & Hj & E).
    rewrite corr_labels_length in Hj.
    exists j. split; auto. apply corr_labels_same; auto.
  - intros (j & Hne & Hs).
    pose proof (same_component_bounded corr df threshold i j Hs) as [_ Hj].
    apply (count_occ_two _ _ i j); auto.
    + now rewrite corr_labels_length.
    + now rewrite corr_labels_length.
    + symmetry. now apply corr_labels_same.
Qed.

(** *** The loop *)

Lemma reduce_group_ok (df : Frame) (label : string)
      (st st' : list string * list string) (g : list string) :
  reduce_group corr df label st g = Ok st' ->
  mems label (fst st) = true
  /\ g <> []
  /\ snd st' = snd st ++ list_remove (keeper corr df label g) g.
Proof.
  unfold reduce_group, loc, keeper, bind.
  destruct (mems label (fst st)); [|discriminate].
  destruct (find _ g); [discriminate|].
  destruct g as [|x g]; [discriminate|].
  destruct (idxmax _) as [k|e]; [|discriminate].
  intros H; injection H as <-. simpl. repeat split; auto. discriminate.
Qed.

Lemma reduce_groups_ok (df : Frame) (label : string) (groups : list (list string))
      (st st' : list string * list string) :
  reduce_groups corr df label groups st = Ok st' ->
  snd st' = snd st ++ List.concat (map (fun g => list_remove (keeper corr df label g) g)
                                       groups).
Proof.
  revert st. induction groups as [|g groups IH]; intros st H; simpl in H.
  - injection H as <-. simpl. now rewrite app_nil_r.
  - unfold bind in H.
    destruct (reduce_group corr df label st g) as [st1|e] eqn:E; [|discriminate].
    apply reduce_group_ok in E as (_ & _ & E). apply IH in H.
    rewrite H, E. simpl. now rewrite app_assoc.
Qed.

Lemma dict_values (df : Frame) (threshold : Q) :
  map snd (high_corr_col_dict corr df threshold)
  = map (group_columns corr df threshold) (high_corr_labels corr df threshold).
Proof. unfold high_corr_col_dict. rewrite map_map. reflexivity. Qed.

(** When the function returns, its result is the table without the
    columns the loop collected, and there was a group to process. *)
Lemma reducer_returns (df out : Frame) (label : string) (threshold : Q) :
  drop_multicollinear_features corr df label threshold = Ok out ->
  high_corr_labels corr df threshold <> []
  /\ out = df_drop (dropped corr df label threshold) df.
Proof.
  unfold drop_multicollinear_features, cols_to_drop, bind.
  destruct (high_corr_labels corr df threshold) as [|l ls] eqn:Eh; simpl;
    [discriminate|].
  fold (List.length ls).
  destruct (reduce_groups _ _ _ _ _) as [st|e] eqn:E; [|discriminate].
  intros H; injection H as <-. split; [discriminate|].
  apply reduce_groups_ok in E. simpl in E.
  rewrite E, dict_values. unfold dropped. now rewrite Eh.
Qed.

(** Without a group the local variable is never bound. *)
Lemma reducer_unbound (df : Frame) (label : string) (threshold : Q) :
  high_corr_labels corr df threshold = [] ->
  drop_multicollinear_features corr df label threshold
  = Raise (UnboundLocalError "cols_to_drop").
Proof.
  intros E. unfold drop_multicollinear_features, cols_to_drop. now rewrite E.
Qed.

Lemma dropped_In (df : Frame) (label : string) (threshold : Q) (c : string) :
  NoDup (columns df) ->
  (In c (dropped corr df label threshold) <->
   exists l, In l (high_corr_labels corr df threshold)
             /\ In c (group_columns corr df threshold l)
             /\ c <> keeper corr df label (group_columns corr df threshold l)).
Proof.
  intros Hnd. unfold dropped. rewrite in_concat. split.
  - intros (x & Hx & Hc). apply in_map_iff in Hx as (g & <- & Hg).
    apply in_map_iff in Hg as (l & <- & Hl).
    apply list_remove_In in Hc; [|now apply group_columns_NoDup].
    exists l. tauto.
  - intros (l & Hl & Hc & Hne).
    exists (list_remove (keeper corr df label (group_columns corr df threshold l))
                        (group_columns corr df threshold l)).
    split.
    + apply in_map_iff. exists (group_columns corr df threshold l). split; auto.
      apply in_map_iff. eauto.
    + apply list_remove_In; [now apply group_columns_NoDup | tauto].
Qed.

Lemma df_drop_In (cols : list string) (df : Frame) (c : string * Column) :
  In c (df_drop cols df) <-> In c df /\ ~ In (fst c) cols.
Proof.
  unfold df_drop. now rewrite filter_In, negb_true_iff, mems_not_In.
Qed.

(** A dropped column belongs to a redundant group. *)
Lemma dropped_redundant (df : Frame) (label : string) (threshold : Q) (i : nat) :
  NoDup (columns df) -> i < List.length df ->
  In (name_at df i) (dropped corr df label threshold) ->
  in_redundant_group corr df threshold i.
Proof.
  intros Hnd Hi H. apply dropped_In in H as (l & Hl & Hc & _); auto.
  apply group_columns_In in Hc as (j & Hj & E & Hlab).
  apply name_at_inj in E; auto. subst j.
  apply high_label_redundant; auto. now rewrite Hlab.
Qed.

(** The label of a group is the label of a column that has a neighbour. *)
Lemma high_label_column (df : Frame) (threshold : Q) (l : nat) :
  In l (high_corr_labels corr df threshold) ->
  exists i, i < List.length df /\ in_redundant_group corr df threshold i.
Proof.
  intros Hl. pose proof Hl as Hc. apply high_corr_labels_In in Hc.
  destruct (count_occ_other _ _ 0 Hc) as (i & _ & Hi & Hv).
  rewrite corr_labels_length in Hi.
  exists i. split; auto. apply high_label_redundant; auto. now rewrite Hv.
Qed.

(** *** When the loop succeeds *)

Lemma high_corr_labels_NoDup (df : Frame) (threshold : Q) :
  NoDup (high_corr_labels corr df threshold).
Proof.
  unfold high_corr_labels. apply NoDup_map_fst_filter, np_unique_NoDup.
Qed.

Lemma groups_NoDup (df : Frame) (threshold : Q) :
  NoDup (columns df) ->
  NoDup (List.concat (map (group_columns corr df threshold)
                          (high_corr_labels corr df threshold))).
Proof.
  intros Hnd. apply NoDup_concat_map.
  - apply high_corr_labels_NoDup.
  - intros l _. now apply group_columns_NoDup.
  - intros l l' x _ _ H H'.
    apply group_columns_In in H as (i & Hi & Ei & <-).
    apply group_columns_In in H' as (i' & Hi' & Ei' & <-).
    rewrite <- Ei' in Ei. apply name_at_inj in Ei; auto. now subst.
Qed.

Lemma high_group_nonempty (df : Frame) (threshold : Q) (l : nat) :
  In l (high_corr_labels corr df threshold) ->
  group_columns corr df threshold l <> [].
Proof.
  intros Hl E. apply high_corr_labels_In in Hl.
  destruct (count_occ_other _ _ 0 Hl) as (i & _ & Hi & Hv).
  rewrite corr_labels_length in Hi.
  assert (H : In (name_at df i) (group_columns corr df threshold l))
    by (apply group_columns_In; eauto).
  rewrite E in H. destruct H.
Qed.

Lemma group_columns_incl (df : Frame) (threshold : Q) (l : nat) (r : string) :
  In r (group_columns corr df threshold l) -> In r (columns df).
Proof.
  intros H. apply group_columns_In in H as (i & Hi & <- & _).
  apply nth_In. now rewrite columns_length.
Qed.

Lemma reduce_group_total (df : Frame) (label : string)
      (live drops g : list string) :
  mems label live = true -> (forall r, In r g -> In r live) -> g <> [] ->
  reduce_group corr df label (live, drops) g
  = Ok (filter (fun c => negb (mems c (list_remove (keeper corr df label g) g))) live,
        drops ++ list_remove (keeper corr df label g) g).
Proof.
  intros Hlabel Hrows Hne.
  destruct (idxmax_spec (fun r => cell corr df r label) g Hne)
    as (k & _ & _ & Hk & _).
  unfold reduce_group, loc, keeper, bind. cbn [fst snd].
  rewrite Hlabel, find_all_false.
  - now rewrite Hk.
  - intros r Hr. apply negb_false_iff, mems_In. auto.
Qed.

Lemma reduce_groups_total (df : Frame) (label : string)
      (groups : list (list string)) (live drops : list string) :
  NoDup (List.concat groups) ->
  (forall g, In g groups -> g <> []) ->
  (forall g, In g groups -> In label g -> keeper corr df label g = label) ->
  mems label live = true ->
  (forall g r, In g groups -> In r g -> In r live) ->
  exists st, reduce_groups corr df label groups (live, drops) = Ok st.
Proof.
  revert live drops.
  induction groups as [|g groups IH]; intros live drops Hnd Hne Hkeep Hlabel Hrows.
  - simpl. eauto.
  - simpl in Hnd. simpl.
    rewrite reduce_group_total; auto;
      [|intros r Hr; apply (Hrows g); auto; now left | apply Hne; now left].
    simpl. pose proof (NoDup_app_remove_r _ _ Hnd) as Hg.
    apply IH.
    + now apply NoDup_app_remove_l in Hnd.
    + intros g' Hg'. apply Hne. now right.
    + intros g' Hg'. apply Hkeep. now right.
    + apply mems_In, filter_In. split; [now apply mems_In|].
      apply negb_true_iff, mems_not_In. intros H.
      apply list_remove_In in H as [Hin Hk]; auto.
      apply Hk. symmetry. apply Hkeep; auto. now left.
    + intros g' r Hg' Hr. apply filter_In. split.
      * apply (Hrows g'); auto. now right.
      * apply negb_true_iff, mems_not_In. intros H.
        apply list_remove_In in H as [Hin _]; auto.
        apply (NoDup_app_disjoint _ _ r Hnd Hin).
        apply in_concat. eauto.
Qed.

End ReducerFacts.

(** ** The reducer *)

Section ReducerTheorems.
Context {Column : Type}.
Variable corr : Column -> Column -> Q.

Local Abbreviation Frame := (@DataFrame Column).

(** C5: on a table in which no column belongs to a connected component of
    two or more columns, the function does not return the table: it raises
    the error of reading the local variable [cols_to_drop], which was
    never assigned. *)
Theorem no_redundant_group_raises (df : Frame) (label : string) (threshold : Q) :
  (forall i, (i < List.length df)%nat -> ~ in_redundant_group corr df threshold i) ->
  drop_multicollinear_features corr df label threshold
  = Raise (UnboundLocalError "cols_to_drop").
Proof.
  intros Hno. apply reducer_unbound.
  destruct (high_corr_labels corr df threshold) as [|l ls] eqn:E; [reflexivity|].
  exfalso.
  destruct (high_label_column corr df threshold l) as (i & Hi & Hred).
  - rewrite E. now left.
  - exact (Hno i Hi Hred).
Qed.

(** Where the function returns a table: a column that belongs to no
    connected component of two or more columns is, with its contents, in
    that table. *)
Theorem ungrouped_column_retained
        (df out : Frame) (label : string) (threshold : Q)
        (i : nat) (c : string * Column) :
  NoDup (columns df) ->
  drop_multicollinear_features corr df label threshold = Ok out ->
  nth_error df i = Some c ->
  ~ in_redundant_group corr df threshold i ->
  In c out.
Proof.
  intros Hnd Hrun Hc Hno.
  apply reducer_returns in Hrun as [_ ->].
  apply df_drop_In. split; [now apply nth_error_In in Hc|].
  intros Hd. apply Hno.
  assert (Hi : i < List.length df) by (apply nth_error_Some; congruence).
  apply (dropped_redundant corr df label threshold i); auto.
  now rewrite (name_at_nth_error df i c Hc).
Qed.

(** C8 on the code: on a table in which no column belongs to a connected
    component of two or more columns, every column is one the claim speaks
    of, and none of them is returned: the function returns no table at all,
    it reads the unassigned [cols_to_drop]. *)
Theorem ungrouped_columns_not_returned
        (df : Frame) (label : string) (threshold : Q)
        (i : nat) (c : string * Column) :
  (forall j, j < List.length df -> ~ in_redundant_group corr df threshold j) ->
  nth_error df i = Some c ->
  ~ in_redundant_group corr df threshold i
  /\ drop_multicollinear_features corr df label threshold
     = Raise (UnboundLocalError "cols_to_drop")
  /\ ~ (exists out, drop_multicollinear_features corr df label threshold = Ok out
                    /\ In c out).
Proof.
  intros Hno Hc.
  assert (Hi : i < List.length df) by (apply nth_error_Some; congruence).
  assert (Hraise : drop_multicollinear_features corr df label threshold
                   = Raise (UnboundLocalError "cols_to_drop")).
  { apply reducer_unbound.
    destruct (high_corr_labels corr df threshold) as [|l ls] eqn:E; [reflexivity|].
    exfalso.
    destruct (high_label_column corr df threshold l) as (j & Hj & Hred).
    - rewrite E. now left.
    - exact (Hno j Hj Hred). }
  split; [exact (Hno i Hi)|]. split; [exact Hraise|].
  intros (out & Hout & _). rewrite Hraise in Hout. discriminate.
Qed.

Lemma cell_corr (df : Frame) (label : string) (y : Column)
      (j : nat) (cj : string * Column) :
  NoDup (columns df) -> lookup label df = Some y -> nth_error df j = Some cj ->
  cell corr df (name_at df j) label = corr (snd cj) y.
Proof.
  intros Hnd Hy Hj. unfold cell.
  now rewrite (name_at_nth_error df j cj Hj), (lookup_nth_error df j cj Hnd Hj), Hy.
Qed.

(** The structure of the group of a column with a neighbour: its names are
    those of the columns of the component, in table order, and the kept
    name is the first at which the label column of the correlation frame is
    maximal. *)
Lemma group_structure (df : Frame) (label : string) (threshold : Q) (i : nat) :
  NoDup (columns df) ->
  in_redundant_group corr df threshold i ->
  let l := nth i (corr_labels corr df threshold) 0 in
  exists k p1 p2,
    In l (high_corr_labels corr df threshold)
    /\ group_positions corr df threshold l = p1 ++ k :: p2
    /\ keeper corr df label (group_columns corr df threshold l) = name_at df k
    /\ same_component corr df threshold i k
    /\ (forall j, In j p1 ->
                  (cell corr df (name_at df j) label < cell corr df (name_at df k) label)%Q)
    /\ (forall j, In j p2 ->
                  (cell corr df (name_at df j) label <= cell corr df (name_at df k) label)%Q)
    /\ (forall j, same_component corr df threshold i j -> In j (p1 ++ k :: p2))
    /\ (forall j, same_component corr df threshold i j ->
                  (In (name_at df j) (dropped corr df label threshold) <-> j <> k)).
Proof.
  intros Hnd Hred l.
  assert (Hi : i < List.length df).
  { destruct Hred as (j & _ & Hs).
    apply (same_component_bounded corr df threshold i j Hs). }
  assert (Hl : In l (high_corr_labels corr df threshold))
    by now apply high_label_redundant.
  assert (Hne : group_columns corr df threshold l <> []).
  { assert (H : In (name_at df i) (group_columns corr df threshold l))
      by (apply group_columns_In; eauto).
    intros E. rewrite E in H. destruct H. }
  destruct (idxmax_spec (fun r => cell corr df r label) _ Hne)
    as (kn & g1 & g2 & Hidx & Hg & H1 & H2).
  assert (Hkeep : keeper corr df label (group_columns corr df threshold l) = kn)
    by (unfold keeper; now rewrite Hidx).
  rewrite group_columns_positions in Hg.
  apply map_eq_app in Hg as (p1 & p2' & Hp & Hg1 & Hg2).
  apply map_eq_cons in Hg2 as (k & p2 & -> & Hk & Hg2).
  assert (Hkin : In k (group_positions corr df threshold l))
    by (rewrite Hp; apply in_or_app; right; now left).
  apply group_positions_In in Hkin as [Hklt Hklab].
  assert (Hgroup : forall j, same_component corr df threshold i j ->
                             j < List.length df
                             /\ nth j (corr_labels corr df threshold) 0 = l).
  { intros j Hj.
    pose proof (same_component_bounded corr df threshold i j Hj) as [_ Hjlt].
    split; auto. symmetry. now apply corr_labels_same. }
  exists k, p1, p2.
  split; [exact Hl|]. split; [exact Hp|]. split; [congruence|].
  split; [now apply corr_labels_same|].
  split; [|split; [|split]].
  - intros j Hj. rewrite Hk. apply H1. rewrite <- Hg1. now apply in_map.
  - intros j Hj. rewrite Hk. apply H2. rewrite <- Hg2. now apply in_map.
  - intros j Hj. rewrite <- Hp. apply group_positions_In. now apply Hgroup.
  - intros j Hj. destruct (Hgroup j Hj) as [Hjlt Hjlab].
    rewrite dropped_In by exact Hnd. split.
    + intros (l' & _ & Hc & Hkn) ->.
      apply group_columns_In in Hc as (k' & Hk' & E & Hlab).
      apply name_at_inj in E; auto. subst k'.
      apply Hkn. rewrite <- Hlab, Hklab, Hkeep. now symmetry.
    + intros Hjk. exists l. split; [exact Hl|]. split.
      * apply group_columns_In. exists j. auto.
      * rewrite Hkeep, <- Hk. intros E. apply name_at_inj in E; auto.
Qed.

(** C3, amended: when the function returns, it keeps of every redundant
    group exactly one column, the one whose signed correlation with the
    label column is the greatest in the group (the first such column of
    the table when several are), and removes every other column of the
    group. *)
Theorem group_keeps_signed_maximum
        (df out : Frame) (label : string) (threshold : Q) (y : Column) (i : nat) :
  NoDup (columns df) ->
  lookup label df = Some y ->
  drop_multicollinear_features corr df label threshold = Ok out ->
  in_redundant_group corr df threshold i ->
  exists k ck,
    same_component corr df threshold i k
    /\ nth_error df k = Some ck
    /\ In ck out
    /\ (forall j cj, same_component corr df threshold i j -> j <> k ->
                     nth_error df j = Some cj -> ~ In (fst cj) (columns out))
    /\ (forall j cj, same_component corr df threshold i j ->
                     nth_error df j = Some cj ->
                     (corr (snd cj) y <= corr (snd ck) y)%Q)
    /\ (forall j cj, same_component corr df threshold i j -> j < k ->
                     nth_error df j = Some cj ->
                     (corr (snd cj) y < corr (snd ck) y)%Q).
Proof.
  intros Hnd Hy Hrun Hred.
  destruct (group_structure df label threshold i Hnd Hred)
    as (k & p1 & p2 & _ & Hp & _ & Hik & H1 & H2 & Hgroup & Hdrop).
  pose proof (same_component_bounded corr df threshold i k Hik) as [Hi Hk].
  destruct (nth_error df k) as [ck|] eqn:Eck;
    [|apply nth_error_None in Eck; lia].
  apply reducer_returns in Hrun as [_ ->].
  exists k, ck. split; [exact Hik|]. split; [exact Eck|].
  split; [|split; [|split]].
  - apply df_drop_In. split; [now apply nth_error_In in Eck|].
    rewrite <- (name_at_nth_error df k ck Eck).
    intros Hd. now apply (Hdrop k Hik) in Hd.
  - intros j cj Hj Hne Ecj Hin.
    apply in_map_iff in Hin as (c' & Ec' & Hc').
    apply df_drop_In in Hc' as [_ Hc']. apply Hc'.
    rewrite Ec', <- (name_at_nth_error df j cj Ecj). now apply Hdrop.
  - intros j cj Hj Ecj.
    rewrite <- (cell_corr df label y j cj Hnd Hy Ecj),
            <- (cell_corr df label y k ck Hnd Hy Eck).
    apply Hgroup, in_app_or in Hj as [Hin | [<- | Hin]].
    + apply Qlt_le_weak. now apply H1.
    + apply Qle_refl.
    + now apply H2.
  - intros j cj Hj Hlt Ecj.
    rewrite <- (cell_corr df label y j cj Hnd Hy Ecj),
            <- (cell_corr df label y k ck Hnd Hy Eck).
    apply Hgroup, in_app_or in Hj as [Hin | [<- | Hin]].
    + now apply H1.
    + lia.
    + apply (seq_filter_split _ _ _ _ _ _ Hp) in Hin. lia.
Qed.

Lemma df_drop_NoDup (cols : list string) (df : Frame) :
  NoDup (columns df) -> NoDup (columns (df_drop cols df)).
Proof. apply NoDup_map_fst_filter. Qed.

Lemma corr_values_nth (df : Frame) (i j : nat) (ci cj : string * Column) :
  nth_error df i = Some ci -> nth_error df j = Some cj ->
  corr_values corr df i j = corr (snd ci) (snd cj).
Proof. intros Hi Hj. unfold corr_values. now rewrite Hi, Hj. Qed.

(** No two columns of the returned table are adjacent. *)
Lemma output_not_adjacent (df out : Frame) (label : string) (threshold : Q)
      (p q : nat) :
  NoDup (columns df) ->
  drop_multicollinear_features corr df label threshold = Ok out ->
  p < List.length out -> q < List.length out ->
  ~ adjacent corr out threshold p q.
Proof.
  intros Hnd Hrun Hp Hq [Hne Hhigh].
  apply reducer_returns in Hrun as [_ Hout].
  destruct (nth_error out p) as [cp|] eqn:Ep; [|apply nth_error_None in Ep; lia].
  destruct (nth_error out q) as [cq|] eqn:Eq; [|apply nth_error_None in Eq; lia].
  rewrite (corr_values_nth out p q cp cq Ep Eq),
          (corr_values_nth out q p cq cp Eq Ep) in Hhigh.
  assert (Hcp : In cp out) by now apply nth_error_In in Ep.
  assert (Hcq : In cq out) by now apply nth_error_In in Eq.
  rewrite Hout in Hcp, Hcq.
  apply df_drop_In in Hcp as [Hcp Hkp]. apply df_drop_In in Hcq as [Hcq Hkq].
  apply In_nth_error in Hcp as [p0 Ep0]. apply In_nth_error in Hcq as [q0 Eq0].
  assert (Hne0 : p0 <> q0).
  { intros ->. assert (cp = cq) by congruence. subst cq.
    apply Hne.
    assert (Hndo : NoDup out).
    { apply (NoDup_map_inv fst). fold (columns out). rewrite Hout.
      now apply df_drop_NoDup. }
    apply (proj1 (NoDup_nth_error out) Hndo p q Hp). congruence. }
  assert (Hp0 : p0 < List.length df) by (apply nth_error_Some; congruence).
  assert (Hq0 : q0 < List.length df) by (apply nth_error_Some; congruence).
  assert (Hadj : adjacent corr df threshold p0 q0).
  { split; auto.
    now rewrite (corr_values_nth df p0 q0 cp cq Ep0 Eq0),
                (corr_values_nth df q0 p0 cq cp Eq0 Ep0). }
  assert (Hpp : same_component corr df threshold p0 p0) by now constructor.
  assert (Hpq : same_component corr df threshold p0 q0)
    by (apply same_component_step with p0; auto).
  assert (Hred : in_redundant_group corr df threshold p0) by (exists q0; auto).
  destruct (group_structure df label threshold p0 Hnd Hred)
    as (k & _ & _ & _ & _ & _ & _ & _ & _ & _ & Hdrop).
  rewrite <- (name_at_nth_error df p0 cp Ep0) in Hkp.
  rewrite <- (name_at_nth_error df q0 cq Eq0) in Hkq.
  rewrite (Hdrop p0 Hpp) in Hkp. rewrite (Hdrop q0 Hpq) in Hkq. lia.
Qed.

(** C4 on the code: the function never returns on a table it returned.
    The second call finds no redundant group and raises the error of
    reading [cols_to_drop]. *)
Theorem second_run_raises (df out : Frame) (label : string) (threshold : Q) :
  NoDup (columns df) ->
  drop_multicollinear_features corr df label threshold = Ok out ->
  drop_multicollinear_features corr out label threshold
  = Raise (UnboundLocalError "cols_to_drop").
Proof.
  intros Hnd Hrun. apply reducer_unbound.
  destruct (high_corr_labels corr out threshold) as [|l ls] eqn:E; [reflexivity|].
  exfalso.
  destruct (high_label_column corr out threshold l) as (p & Hp & Hred).
  - rewrite E. now left.
  - apply in_redundant_group_adjacent in Hred as (q & Hq & Hadj); auto.
    now apply (output_not_adjacent df out label threshold p q).
Qed.

(** When the label is the first column of the table and no column is more
    correlated with the label than the label itself, the loop keeps the
    label in the group that contains it. *)
Lemma keeper_label_first (rest : Frame) (label : string) (y : Column)
      (threshold : Q) (l : nat) :
  let df := (label, y) :: rest in
  NoDup (columns df) ->
  (forall c, In c df -> (corr (snd c) y <= corr y y)%Q) ->
  In label (group_columns corr df threshold l) ->
  keeper corr df label (group_columns corr df threshold l) = label.
Proof.
  intros df Hnd Hmax Hin.
  assert (E0 : nth_error df 0 = Some (label, y)) by reflexivity.
  assert (Hy : lookup label df = Some y)
    by (exact (lookup_nth_error df 0 (label, y) Hnd E0)).
  assert (H0 : 0 < List.length df) by (simpl; lia).
  assert (Hlab : nth 0 (corr_labels corr df threshold) 0 = l).
  { apply group_columns_In in Hin as (i & Hi & Ei & Hlab).
    change label with (name_at df 0) in Ei. apply name_at_inj in Ei; auto.
    now subst i. }
  assert (Hne : group_columns corr df threshold l <> [])
    by (intros E; rewrite E in Hin; destruct Hin).
  destruct (idxmax_spec (fun r => cell corr df r label) _ Hne)
    as (k & g1 & g2 & Hidx & Hg & H1 & _).
  assert (Hkeep : keeper corr df label (group_columns corr df threshold l) = k)
    by (unfold keeper; now rewrite Hidx).
  rewrite Hkeep.
  assert (Hk : In k (group_columns corr df threshold l))
    by (rewrite Hg; apply in_or_app; right; now left).
  apply group_columns_In in Hk as (j & Hj & Ej & _).
  destruct (nth_error df j) as [cj|] eqn:Ecj; [|apply nth_error_None in Ecj; lia].
  (* the label heads the group *)
  assert (Hhead : exists g', group_columns corr df threshold l = label :: g').
  { rewrite group_columns_positions. unfold group_positions.
    change (List.length df) with (S (List.length rest)).
    rewrite <- cons_seq. simpl filter. rewrite Hlab, Nat.eqb_refl. simpl. eauto. }
  destruct Hhead as [g' Hhead]. rewrite Hhead in Hg.
  destruct g1 as [|h g1]; simpl in Hg; injection Hg as Hh Ht; [now symmetry|].
  subst h. exfalso.
  assert (Hlt : (cell corr df label label < cell corr df k label)%Q)
    by (apply H1; now left).
  change label with (name_at df 0) in Hlt at 1. rewrite <- Ej in Hlt.
  rewrite (cell_corr df label y 0 (label, y) Hnd Hy E0),
          (cell_corr df label y j cj Hnd Hy Ecj) in Hlt.
  apply Qlt_not_le in Hlt. apply Hlt, Hmax. now apply nth_error_In in Ecj.
Qed.

(** Then the label column is in the table the function returns. *)
Lemma first_label_retained (rest out : Frame) (label : string) (y : Column)
      (threshold : Q) :
  let df := (label, y) :: rest in
  NoDup (columns df) ->
  (forall c, In c df -> (corr (snd c) y <= corr y y)%Q) ->
  drop_multicollinear_features corr df label threshold = Ok out ->
  In (label, y) out.
Proof.
  intros df Hnd Hmax Hrun.
  apply reducer_returns in Hrun as [_ ->].
  apply df_drop_In. split; [now left|]. simpl fst. intros Hd.
  apply dropped_In in Hd as (l & _ & Hc & Hk); auto.
  apply Hk. symmetry. now apply keeper_label_first.
Qed.

(** And the function returns as soon as the table has a redundant group. *)
Lemma first_label_returns (rest : Frame) (label : string) (y : Column)
      (threshold : Q) (i : nat) :
  let df := (label, y) :: rest in
  NoDup (columns df) ->
  (forall c, In c df -> (corr (snd c) y <= corr y y)%Q) ->
  in_redundant_group corr df threshold i ->
  exists out, drop_multicollinear_features corr df label threshold = Ok out.
Proof.
  intros df Hnd Hmax Hred.
  assert (Hi : i < List.length df).
  { destruct Hred as (j & _ & Hs).
    apply (same_component_bounded corr df threshold i j Hs). }
  assert (Hl : In (nth i (corr_labels corr df threshold) 0)
                  (high_corr_labels corr df threshold))
    by now apply high_label_redundant.
  assert (Hlen : (0 <? List.length (high_corr_labels corr df threshold)) = true).
  { destruct (high_corr_labels corr df threshold); [destruct Hl | reflexivity]. }
  destruct (reduce_groups_total corr df label
              (map (group_columns corr df threshold)
                   (high_corr_labels corr df threshold))
              (columns df) []) as [st Hst].
  - now apply groups_NoDup.
  - intros g Hg. apply in_map_iff in Hg as (l & <- & Hg).
    now apply high_group_nonempty.
  - intros g Hg Hin. apply in_map_iff in Hg as (l & <- & Hg).
    now apply keeper_label_first.
  - apply mems_In. now left.
  - intros g r Hg Hr. apply in_map_iff in Hg as (l & <- & Hg).
    now apply (group_columns_incl corr df threshold l).
  - exists (df_drop (snd st) df).
    unfold drop_multicollinear_features, cols_to_drop.
    rewrite Hlen, dict_values, Hst. reflexivity.
Qed.

Lemma has_neighbour_spec (df : Frame) (threshold : Q) (i : nat) :
  i < List.length df ->
  (has_neighbour corr df threshold i = true <-> in_redundant_group corr df threshold i).
Proof.
  intros Hi. rewrite in_redundant_group_adjacent by exact Hi.
  unfold has_neighbour, adjacent. rewrite existsb_exists. split.
  - intros (j & Hj & H). apply in_seq in Hj.
    apply andb_true_iff in H as [Hne H]. apply negb_true_iff, Nat.eqb_neq in Hne.
    apply orb_true_iff in H. rewrite !Qgtb_lt in H.
    exists j. repeat split; auto; lia.
  - intros (j & Hj & Hne & H). exists j. split; [apply in_seq; lia|].
    apply andb_true_iff. split; [now apply negb_true_iff, Nat.eqb_neq|].
    apply orb_true_iff. now rewrite !Qgtb_lt.
Qed.

End ReducerTheorems.

(** ** The reducer on the example tables *)

Lemma no_redundant_group_raises_witness :
  drop_multicollinear_features (matrix_corr plain_matrix) plain_table "Churn" 0.85%Q
  = Raise (UnboundLocalError "cols_to_drop").
Proof.
  apply no_redundant_group_raises.
  intros i Hi Hred. apply has_neighbour_spec in Hred; [|exact Hi].
  destruct i as [|[|i]]; [discriminate Hred | discriminate Hred | simpl in Hi; lia].
Defined.

Lemma ungrouped_columns_not_returned_witness :
  ~ in_redundant_group (matrix_corr plain_matrix) plain_table 0.85%Q 1
  /\ drop_multicollinear_features (matrix_corr plain_matrix) plain_table "Churn" 0.85%Q
     = Raise (UnboundLocalError "cols_to_drop")
  /\ ~ (exists out,
          drop_multicollinear_features (matrix_corr plain_matrix) plain_table
                                       "Churn" 0.85%Q = Ok out
          /\ In ("A"%string, 1) out).
Proof.
  apply (ungrouped_columns_not_returned (matrix_corr plain_matrix) plain_table
           "Churn" 0.85%Q 1 ("A"%string, 1)).
  - intros j Hj Hred. apply has_neighbour_spec in Hred; [|exact Hj].
    destruct j as [|[|j]]; [discriminate Hred | discriminate Hred | simpl in Hj; lia].
  - reflexivity.
Defined.

Lemma ungrouped_column_retained_witness :
  In ("Churn", 0) [("Churn", 0); ("B", 2)].
Proof.
  apply (ungrouped_column_retained (matrix_corr chain_matrix) chain_table
           [("Churn", 0); ("B", 2)] "Churn" 0.85%Q 0 ("Churn", 0)).
  - distinct_names.
  - vm_compute. reflexivity.
  - reflexivity.
  - intros Hred. apply has_neighbour_spec in Hred; [|simpl; lia].
    discriminate Hred.
Defined.

(** C3 as stated fails: A and B form a redundant group, A has the greater
    absolute correlation with the label (0.8 against 0.5), and the function
    keeps B and removes A. *)
Lemma absolute_maximum_not_kept :
  let corr := matrix_corr negative_matrix in
  same_component corr negative_table 0.85%Q 1 2
  /\ (Qabs (corr 2%nat 0%nat) < Qabs (corr 1%nat 0%nat))%Q
  /\ drop_multicollinear_features corr negative_table "Churn" 0.85%Q
     = Ok [("Churn", 0); ("B", 2)].
Proof.
  split; [|split].
  - apply same_component_step with 1.
    + constructor. simpl. lia.
    + simpl. lia.
    + split; [lia|]. left. reflexivity.
  - reflexivity.
  - vm_compute. reflexivity.
Qed.

Lemma group_keeps_signed_maximum_witness :
  let corr := matrix_corr chain_matrix in
  exists k ck,
    same_component corr chain_table 0.85%Q 1 k
    /\ nth_error chain_table k = Some ck
    /\ In ck [("Churn", 0); ("B", 2)]
    /\ (forall j cj, same_component corr chain_table 0.85%Q 1 j -> j <> k ->
                     nth_error chain_table j = Some cj ->
                     ~ In (fst cj) (columns [("Churn", 0); ("B", 2)]))
    /\ (forall j cj, same_component corr chain_table 0.85%Q 1 j ->
                     nth_error chain_table j = Some cj ->
                     (corr (snd cj) 0%nat <= corr (snd ck) 0%nat)%Q)
    /\ (forall j cj, same_component corr chain_table 0.85%Q 1 j -> j < k ->
                     nth_error chain_table j = Some cj ->
                     (corr (snd cj) 0%nat < corr (snd ck) 0%nat)%Q).
Proof.
  apply (group_keeps_signed_maximum (matrix_corr chain_matrix) chain_table
           [("Churn", 0); ("B", 2)] "Churn" 0.85%Q 0 1).
  - distinct_names.
  - reflexivity.
  - vm_compute. reflexivity.
  - apply has_neighbour_spec; [simpl; lia | reflexivity].
Defined.

Lemma second_run_raises_witness :
  drop_multicollinear_features (matrix_corr chain_matrix)
    [("Churn", 0); ("B", 2)] "Churn" 0.85%Q
  = Raise (UnboundLocalError "cols_to_drop").
Proof.
  apply (second_run_raises (matrix_corr chain_matrix) chain_table
           [("Churn", 0); ("B", 2)] "Churn" 0.85%Q).
  - distinct_names.
  - vm_compute. reflexivity.
Defined.

(** C9 on the code: feature A equals the label (correlation 1) and stands
    before it; the function keeps A and removes the label column. *)
Lemma label_column_removed :
  drop_multicollinear_features (matrix_corr copy_matrix) copy_table "Churn" 0.85%Q
  = Ok [("A", 0)].
Proof. vm_compute. reflexivity. Qed.

(** ** The reducer in the workflow *)

Lemma users_nonempty (df : list Labeled) : df <> [] -> users df <> [].
Proof.
  destruct df as [|r df]; [congruence|]. intros _ E.
  assert (H : In (luid r) (users (r :: df))) by (apply users_In; exists r; simpl; auto).
  rewrite E in H. destruct H.
Qed.

(** The table the feature builder hands to the reducer has distinct
    column names and the label as its first column. *)
Lemma workflow_label_first (df : list Event) :
  df <> [] ->
  exists y rest,
    table_of (build_features (label_data df)) = ("Churn"%string, y) :: rest
    /\ NoDup (columns (table_of (build_features (label_data df)))).
Proof.
  intros Hne.
  assert (Hl : label_data df <> []).
  { intros E. apply Hne. rewrite <- (label_data_events df), E. reflexivity. }
  apply users_nonempty in Hl. unfold build_features, table_of.
  destruct (users (label_data df)) as [|u us]; [congruence|].
  cbn [map]. rewrite user_row_columns. cbn [map].
  do 2 eexists. split; [reflexivity|].
  unfold columns. cbn [map fst]. distinct_names.
Qed.

(** In the workflow the label column survives the reducer, provided no
    column is more correlated with the label than the label itself. *)
Lemma workflow_keeps_label (corr : list (option Q) -> list (option Q) -> Q)
      (df : list Event) (out : @DataFrame (list (option Q))) :
  df <> [] ->
  (forall x y, (corr x y <= corr y y)%Q) ->
  model_df corr df = Ok out ->
  exists y, In ("Churn"%string, y) out.
Proof.
  intros Hne Hmax Hrun.
  destruct (workflow_label_first df Hne) as (y & rest & E & Hnd).
  unfold model_df in Hrun. rewrite E in Hrun, Hnd.
  exists y. apply (first_label_retained corr rest out "Churn" y 0.85%Q); auto.
Qed.

(** * Further properties of the notebook *)

Local Open Scope Z_scope.

(** ** The labeler and the churn counts *)

Lemma has_cancellationb_spec (df : list Event) (u : string) :
  has_cancellationb df u = true <-> has_cancellation df u.
Proof.
  unfold has_cancellationb, has_cancellation. rewrite existsb_exists.
  split; intros (e & He & H); exists e; split; auto.
  - apply andb_true_iff in H. now rewrite !String.eqb_eq in H.
  - apply andb_true_iff. now rewrite !String.eqb_eq.
Qed.

(** The label of a row, as a function of its user. *)
Lemma label_data_value (df : list Event) (r : Labeled) :
  In r (label_data df) ->
  Churn r = Some (when01 (has_cancellationb df (userId (event r)))).
Proof.
  intros Hr. apply label_data_row in Hr as [Hin ->].
  apply sql_max_spec.
  destruct (has_cancellationb df (userId (event r))) eqn:Hc.
  - apply has_cancellationb_spec in Hc as (e & He & Hu & Hp). split.
    + apply window_flags. exists e. repeat split; auto.
      now rewrite Hp, String.eqb_refl.
    + intros y Hy. apply window_flags in Hy as (e' & _ & _ & ->).
      destruct (String.eqb (page e') terminal_action); simpl; lia.
  - assert (Hnone : forall e, In e df -> userId e = userId (event r) ->
                              String.eqb (page e) terminal_action = false).
    { intros e He Hu.
      destruct (String.eqb (page e) terminal_action) eqn:Ep; auto.
      apply String.eqb_eq in Ep.
      assert (has_cancellationb df (userId (event r)) = true)
        by (apply has_cancellationb_spec; exists e; auto).
      congruence. }
    split.
    + apply window_flags. exists (event r). repeat split; auto.
      now rewrite (Hnone (event r) Hin eq_refl).
    + intros y Hy. apply window_flags in Hy as (e' & He' & Hu' & ->).
      rewrite (Hnone e' He' Hu'). simpl. lia.
Qed.

(** X1: the labeler neither drops nor repeats an event (the rows of its
    result carry the events of the log, each as often as the log has it,
    in whatever order), and gives each of them a label that is 0 or 1,
    never null. *)
Theorem label_data_frame (df : list Event) :
  Permutation (map event (label_data df)) df
  /\ Forall (fun r => Churn r = Some 0 \/ Churn r = Some 1) (label_data df).
Proof.
  split; [rewrite label_data_events; apply Permutation_refl|].
  apply Forall_forall. intros r Hr. rewrite (label_data_value df r Hr).
  destruct (has_cancellationb df (userId (event r))); simpl; auto.
Qed.

Lemma label_eqb_eq (a b : option Z) : label_eqb a b = true <-> a = b.
Proof.
  destruct a as [x|], b as [y|]; simpl; try (split; congruence).
  rewrite Z.eqb_eq. split; congruence.
Qed.

Lemma dropDuplicates_from_In (seen : list string) (df : list Labeled) (r : Labeled) :
  In r (dropDuplicates_from seen df) -> In r df /\ ~ In (luid r) seen.
Proof.
  revert seen. induction df as [|x df IH]; intros seen H; simpl in H; [destruct H|].
  destruct (mems (luid x) seen) eqn:E.
  - apply IH in H. simpl. tauto.
  - apply mems_not_In in E. destruct H as [<- | H].
    + simpl. auto.
    + apply IH in H as [H Hs]. simpl in *. tauto.
Qed.

Lemma dropDuplicates_from_NoDup (seen : list string) (df : list Labeled) :
  NoDup (map luid (dropDuplicates_from seen df)).
Proof.
  revert seen. induction df as [|x df IH]; intros seen; simpl; [constructor|].
  destruct (mems (luid x) seen); auto.
  simpl. constructor; auto.
  intros H. apply in_map_iff in H as (r & E & Hr).
  apply dropDuplicates_from_In in Hr as [_ Hr]. apply Hr. rewrite E. now left.
Qed.

Lemma dropDuplicates_from_cover (seen : list string) (df : list Labeled) (r : Labeled) :
  In r df -> ~ In (luid r) seen ->
  exists r', In r' (dropDuplicates_from seen df) /\ luid r' = luid r.
Proof.
  revert seen. induction df as [|x df IH]; intros seen H Hs; [destruct H|].
  simpl. destruct (mems (luid x) seen) eqn:E.
  - apply mems_In in E. destruct H as [-> | H]; [contradiction|]. now apply IH.
  - destruct H as [-> | H].
    + exists r. split; auto. now left.
    + destruct (String.eqb (luid r) (luid x)) eqn:Eu.
      * apply String.eqb_eq in Eu. exists x. split; auto. now left.
      * apply String.eqb_neq in Eu.
        destruct (IH (luid x :: seen) H) as (r' & Hr' & Hu).
        { simpl. intros [Hx | Hx]; [congruence | contradiction]. }
        exists r'. split; auto. now right.
Qed.

Lemma distinct_labels_In (seen l : list (option Z)) (v : option Z) :
  In v (distinct_labels seen l) -> In v l.
Proof.
  revert seen. induction l as [|w l IH]; intros seen H; simpl in H; [destruct H|].
  destruct (existsb (label_eqb w) seen).
  - right. now apply IH in H.
  - destruct H as [<- | H]; [now left | right; now apply IH in H].
Qed.

Lemma find_label_count (cnt : option Z -> nat) (labels : list (option Z)) (v : option Z) :
  count_of v (map (fun w => (w, cnt w)) labels)
  = if existsb (label_eqb v) labels then cnt v else O.
Proof.
  unfold count_of. induction labels as [|w labels IH]; simpl; auto.
  destruct (label_eqb w v) eqn:E.
  - apply label_eqb_eq in E. subst w.
    now rewrite (proj2 (label_eqb_eq v v) eq_refl).
  - destruct (label_eqb v w) eqn:E'; [|exact IH].
    apply label_eqb_eq in E'. subst w.
    rewrite (proj2 (label_eqb_eq v v) eq_refl) in E. discriminate.
Qed.

Lemma distinct_labels_complete (seen l : list (option Z)) (v : option Z) :
  In v l -> existsb (label_eqb v) seen = false ->
  existsb (label_eqb v) (distinct_labels seen l) = true.
Proof.
  revert seen. induction l as [|w l IH]; intros seen H Hs; [destruct H|].
  simpl. destruct (existsb (label_eqb w) seen) eqn:E.
  - destruct H as [-> | H]; [congruence | now apply IH].
  - simpl. destruct (label_eqb v w) eqn:Ev; auto. simpl.
    destruct H as [-> | H].
    + rewrite (proj2 (label_eqb_eq v v) eq_refl) in Ev. discriminate.
    + apply IH; auto. simpl. now rewrite Ev.
Qed.

(** The count shown for a label is the number of rows that carry it. *)
Lemma count_of_groupby (df : list Labeled) (v : option Z) :
  count_of v (groupby_Churn_count df)
  = List.length (filter (fun r => label_eqb (Churn r) v) df).
Proof.
  unfold groupby_Churn_count. rewrite find_label_count.
  destruct (existsb (label_eqb v) (distinct_labels [] (map Churn df))) eqn:E; auto.
  destruct (filter (fun r => label_eqb (Churn r) v) df) as [|r rs] eqn:Ef; auto.
  exfalso.
  assert (Hr : In r (filter (fun r => label_eqb (Churn r) v) df))
    by (rewrite Ef; now left).
  apply filter_In in Hr as [Hr Hv]. apply label_eqb_eq in Hv.
  rewrite (distinct_labels_complete [] (map Churn df) v) in E; [discriminate | | reflexivity].
  rewrite <- Hv. now apply in_map.
Qed.

Lemma filter_keeps_distinct_keys {R K : Type} (key : R -> K) (keep : R -> bool)
      (rows : list R) (Hrows : NoDup (map key rows)) :
  NoDup (map key (filter keep rows)).
Proof.
  induction rows as [|r rows IH]; simpl in *; [constructor|].
  inversion Hrows as [|? ? Hnin Hnd]; subst.
  destruct (keep r); simpl; auto. constructor; auto.
  intros Hin. apply Hnin. apply in_map_iff in Hin as (y & E & Hy).
  apply in_map_iff. exists y. split; auto. now apply filter_In in Hy.
Qed.

Lemma same_elements_length {A : Type} (l1 l2 : list A) :
  NoDup l1 -> NoDup l2 -> (forall x, In x l1 <-> In x l2) ->
  List.length l1 = List.length l2.
Proof.
  intros H1 H2 H. apply Nat.le_antisymm; apply NoDup_incl_length; auto;
    intros x Hx; now apply H.
Qed.

(** The users of the deduplicated labeled log that carry a given label. *)
Lemma churn_count_users (df : list Event) (b : bool) (us : list string) :
  NoDup us ->
  (forall u, In u us <-> is_user df u /\ has_cancellationb df u = b) ->
  count_of (Some (when01 b)) (churn_counts (label_data df)) = List.length us.
Proof.
  intros Hnd Hus. unfold churn_counts. rewrite count_of_groupby.
  set (D := dropDuplicates_userId (label_data df)).
  rewrite <- (length_map luid).
  apply same_elements_length; auto.
  - apply filter_keeps_distinct_keys. apply dropDuplicates_from_NoDup.
  - intros u. rewrite Hus, in_map_iff. split.
    + intros (r & <- & Hr). apply filter_In in Hr as [Hr Hv].
      apply dropDuplicates_from_In in Hr as [Hr _].
      apply label_eqb_eq in Hv. rewrite (label_data_value df r Hr) in Hv.
      pose proof (label_data_row df r Hr) as [Hin _]. split.
      * exists (event r). auto.
      * unfold luid.
        destruct (has_cancellationb df (userId (event r))), b; simpl in Hv;
          congruence.
    + intros [(e & He & Hu) Hb].
      assert (He' : In e (map event (label_data df)))
        by now rewrite label_data_events.
      apply in_map_iff in He' as (r & Er & Hr).
      destruct (dropDuplicates_from_cover [] (label_data df) r Hr) as (r' & Hr' & Hu');
        [intros []|].
      exists r'. split; [unfold luid in *; congruence|].
      apply filter_In. split; auto. apply label_eqb_eq.
      apply dropDuplicates_from_In in Hr' as [Hr' _].
      rewrite (label_data_value df r' Hr'). unfold luid in Hu'.
      rewrite Hu', Er, Hu, Hb. reflexivity.
Qed.

(** X2: the churn counts printed by the workflow. After [label_data], the
    count for label 1 is the number of distinct users with a cancellation
    confirmation and the count for label 0 is the number of the other
    users, whichever row of a user [dropDuplicates] keeps first. *)
Theorem churn_counts_are_user_counts (df : list Event) (churned retained : list string) :
  NoDup churned -> NoDup retained ->
  (forall u, In u churned <-> has_cancellation df u) ->
  (forall u, In u retained <-> is_user df u /\ ~ has_cancellation df u) ->
  count_of (Some 1) (churn_counts (label_data df)) = List.length churned
  /\ count_of (Some 0) (churn_counts (label_data df)) = List.length retained.
Proof.
  intros Hc Hr Hchurned Hretained. split.
  - apply (churn_count_users df true); auto.
    intros u. rewrite Hchurned, has_cancellationb_spec. split; [|tauto].
    intros H. split; auto. destruct H as (e & He & Hu & _). exists e. auto.
  - apply (churn_count_users df false); auto.
    intros u. rewrite Hretained, <- has_cancellationb_spec.
    destruct (has_cancellationb df u); split; intros [H1 H2]; split; auto; congruence.
Qed.

Lemma churn_counts_are_user_counts_witness :
  count_of (Some 1) (churn_counts (label_data log3)) = List.length ["1"]
  /\ count_of (Some 0) (churn_counts (label_data log3)) = List.length ["2"; "3"].
Proof.
  apply (churn_counts_are_user_counts log3 ["1"] ["2"; "3"]).
  - distinct_names.
  - distinct_names.
  - intros u. split.
    + intros [<- | []].
      exists (mkEvent "1" 30 "Cancellation Confirmation" (Some 1) 1).
      simpl. auto.
    + intros (e & He & Hu & Hp). simpl in He.
      destruct He as [<- | [<- | [<- | [<- | [<- | []]]]]];
        simpl in Hu, Hp; try discriminate Hp. now left.
  - intros u. split.
    + intros [<- | [<- | []]]; split.
      * exists (mkEvent "2" 20 "NextSong" (Some 2) 7). simpl. auto.
      * intros (e & He & Hu & Hp). simpl in He.
        destruct He as [<- | [<- | [<- | [<- | [<- | []]]]]];
          simpl in Hu, Hp; discriminate.
      * exists (mkEvent "3" 40 "Thumbs Up" (Some 3) 9). simpl. auto 6.
      * intros (e & He & Hu & Hp). simpl in He.
        destruct He as [<- | [<- | [<- | [<- | [<- | []]]]]];
          simpl in Hu, Hp; discriminate.
    + intros [(e & He & Hu) Hn]. simpl in He.
      destruct He as [<- | [<- | [<- | [<- | [<- | []]]]]]; simpl in Hu; subst u;
        simpl; auto;
        exfalso; apply Hn;
        exists (mkEvent "1" 30 "Cancellation Confirmation" (Some 1) 1);
        simpl; auto.
Defined.

(** ** The feature builder *)

Ltac long_timestamps :=
  repeat (constructor; [split; [discriminate | reflexivity]|]); constructor.

Lemma to_days (x : Q) :
  sql_div (sql_div (sql_div (Some x) (Some 1000%Q)) (Some 3600%Q)) (Some 24%Q)
  = Some (x / 1000 / 3600 / 24)%Q.
Proof. reflexivity. Qed.

Lemma to_hours (x : Q) :
  sql_div (sql_div (Some x) (Some 1000%Q)) (Some 3600%Q) = Some (x / 1000 / 3600)%Q.
Proof. reflexivity. Qed.

Lemma days_nonneg (z : Z) : 0 <= z -> (0 <= inject_Z z / 1000 / 3600 / 24)%Q.
Proof.
  intros H. unfold Qle, Qdiv, Qmult, Qinv, inject_Z. simpl. lia.
Qed.

Lemma hours_nonneg (z : Z) : 0 <= z -> (0 <= inject_Z z / 1000 / 3600)%Q.
Proof.
  intros H. unfold Qle, Qdiv, Qmult, Qinv, inject_Z. simpl. lia.
Qed.

Lemma days_zero (z : Z) : (inject_Z z / 1000 / 3600 / 24 == 0)%Q <-> z = 0.
Proof.
  unfold Qeq, Qdiv, Qmult, Qinv, inject_Z. simpl. lia.
Qed.

Lemma wrap_long_small (z : Z) : - 2 ^ 63 <= z < 2 ^ 63 -> wrap_long z = z.
Proof.
  intros H. unfold wrap_long. rewrite Z.mod_small; lia.
Qed.

Lemma obs_start_le (df : list Labeled) (r : Labeled) :
  In r df ->
  exists s, obs_start df r = Some s /\ s <= lts r
            /\ exists x, In x df /\ lts x = s.
Proof.
  intros Hr.
  destruct (obs_start_default_spec df r Hr) as (gmin & Hd & Hatt & Hlb).
  destruct (first_ts_earliest df r Hr) as (f & Hf & Hfin & _ & Hmin).
  unfold obs_start. rewrite Hd.
  destruct (registration (event r)) as [reg|]; [destruct (reg >? gmin)|].
  - rewrite Hf. exists (lts f). split; auto. split; auto. exists f. auto.
  - exists gmin. split; auto.
  - exists gmin. split; auto.
Qed.

Lemma obs_end_ge (df : list Labeled) (r : Labeled) :
  In r df ->
  exists e, obs_end df r = Some e /\ lts r <= e
            /\ exists x, In x df /\ lts x = e.
Proof.
  intros Hr.
  destruct (obs_end_default_spec df r Hr) as (gmax & Hd & Hatt & Hub).
  destruct (final_event_latest df r Hr) as (f & Hf & Hfin & _ & Hmax).
  unfold obs_end, end_state. rewrite userWindow_history, !sql_last_map, Hf, Hd. simpl.
  destruct (String.eqb (page (event f)) terminal_action).
  - exists (lts f). split; auto. split; auto. exists f. auto.
  - exists gmax. split; auto.
Qed.

(** X3: when the timestamps of the log are non-negative longs (so that
    the 64-bit subtraction of two of them does not wrap around), the
    observation window of a row never ends before it starts: both ends are
    defined, the length in days is defined and not negative, and it is zero
    exactly when the two ends coincide. *)
Theorem observation_window_nonnegative (df : list Labeled) (r : Labeled) :
  Forall (fun x => 0 <= lts x < 2 ^ 63) df ->
  In r df ->
  exists s e d,
    obs_start df r = Some s /\ obs_end df r = Some e /\ s <= e
    /\ obsDays df r = Some d /\ (0 <= d)%Q /\ ((d == 0)%Q <-> s = e).
Proof.
  intros Hrange Hr. rewrite Forall_forall in Hrange.
  destruct (obs_start_le df r Hr) as (s & Hs & Hsr & xs & Hxs & Es).
  destruct (obs_end_ge df r Hr) as (e & He & Hre & xe & Hxe & Ee).
  pose proof (Hrange xs Hxs) as Rs. pose proof (Hrange xe Hxe) as Re.
  rewrite Es in Rs. rewrite Ee in Re.
  exists s, e, (inject_Z (e - s) / 1000 / 3600 / 24)%Q.
  split; [exact Hs|]. split; [exact He|]. split; [lia|]. split.
  - unfold obsDays. rewrite Hs, He. simpl sql_sub.
    rewrite wrap_long_small by lia. apply to_days.
  - split; [apply days_nonneg; lia|]. rewrite days_zero. lia.
Qed.

Lemma observation_window_nonnegative_witness :
  exists s e d,
    obs_start start_log start_row = Some s /\ obs_end start_log start_row = Some e
    /\ s <= e
    /\ obsDays start_log start_row = Some d /\ (0 <= d)%Q /\ ((d == 0)%Q <-> s = e).
Proof.
  apply (observation_window_nonnegative start_log start_row).
  - long_timestamps.
  - left; reflexivity.
Defined.

Lemma sql_div_zero (x : option Q) (d : Q) : (d == 0)%Q -> sql_div x (Some d) = None.
Proof.
  intros Hd. unfold sql_div. destruct x; auto.
  now rewrite (proj2 (Qeq_bool_iff d 0) Hd).
Qed.

(** X4: for a user whose observation window has length zero, every
    average-daily-rate column of the emitted row is null. *)
Theorem zero_window_rates_null (df : list Labeled) (u : string) (d : Q)
        (rate_name count_name : string) :
  user_obsDays df u = Some d -> (d == 0)%Q ->
  In (rate_name, count_name) rate_columns ->
  col rate_name (user_row df u) = None.
Proof.
  intros Hobs Hd Hrate.
  unfold user_row, joined_user, agg_user. cbn [map count_columns app fst snd].
  rewrite finish_user_explicit, Hobs.
  rewrite !(sql_div_zero _ d Hd).
  unfold rate_columns in Hrate.
  repeat (destruct Hrate as [Hrate | Hrate];
          [injection Hrate as <- <-; reflexivity | ]).
  destruct Hrate.
Qed.

Lemma zero_window_rates_null_witness :
  col "avgDailySongs" (user_row instant_log "A") = None.
Proof.
  apply (zero_window_rates_null instant_log "A" (0 # 86400000) "avgDailySongs" "nSongs").
  - reflexivity.
  - reflexivity.
  - left; reflexivity.
Defined.

(** X5: every row the feature builder emits has the same thirteen columns,
    the label first; the user id, the window length and the raw counts are
    not among them. *)
Theorem build_features_columns (df : list Labeled) :
  Forall (fun row =>
            map fst row =
            [ "Churn"; "registDuration"; "avgSessionDuration";
              "avgDailySongs"; "avgDailyThumbsUp"; "avgDailyThumbsDown";
              "avgDailyUpgrade"; "avgDailyDowngrade"; "avgDailyAddFriend";
              "avgDailyAddPlaylist"; "avgDailyAdvert"; "avgDailyHelp";
              "avgDailyError" ])
         (build_features df).
Proof.
  apply Forall_forall. intros row Hrow.
  apply build_features_rows in Hrow as (u & _ & ->).
  apply user_row_columns.
Qed.

Lemma fold_Qplus_nonneg (l : list Q) (a : Q) :
  (0 <= a)%Q -> Forall (fun q => (0 <= q)%Q) l -> (0 <= fold_left Qplus l a)%Q.
Proof.
  revert a. induction l as [|x l IH]; intros a Ha Hl; simpl; auto.
  inversion Hl; subst. apply IH; auto.
  rewrite <- (Qplus_0_l 0). now apply Qplus_le_compat.
Qed.

Lemma sql_avg_nonneg (l : list (option Q)) :
  l <> [] ->
  Forall (fun v => exists q, v = Some q /\ (0 <= q)%Q) l ->
  exists q, sql_avg l = Some q /\ (0 <= q)%Q.
Proof.
  intros Hne Hall. unfold sql_avg.
  set (vals := flat_map (fun v => match v with Some q => [q] | None => [] end) l).
  assert (Hvals : Forall (fun q => (0 <= q)%Q) vals /\ vals <> []).
  { subst vals. split.
    - clear Hne. induction Hall as [|v l (q & Hv & Hq) Hl IH]; simpl; auto.
      subst v. simpl. constructor; auto.
    - destruct Hall as [|v l (q & Hv & Hq) Hl]; [congruence|].
      subst v. simpl. discriminate. }
  destruct Hvals as [Hpos Hne']. destruct vals as [|x vals]; [congruence|].
  eexists. split; [reflexivity|].
  apply Qle_shift_div_l.
  - unfold Qlt, inject_Z. simpl. lia.
  - rewrite Qmult_0_l. apply fold_Qplus_nonneg; auto. apply Qle_refl.
Qed.

Lemma group_nonempty (df : list Labeled) (u : string) :
  In u (users df) -> exists r, In r (group df u).
Proof.
  intros H. apply users_In in H as (r & Hr & Hu). exists r.
  now apply (partitionBy_In luid u df r).
Qed.

(** X6: when the timestamps of the log are non-negative longs (so that
    the 64-bit subtraction of two of them does not wrap around), the
    average session duration of every user of the log is defined and not
    negative. *)
Theorem avg_session_duration_nonnegative (df : list Labeled) (u : string) :
  Forall (fun x => 0 <= lts x < 2 ^ 63) df ->
  In u (users df) ->
  exists q, avgSessionDuration df u = Some q /\ (0 <= q)%Q.
Proof.
  intros Hrange Hu. rewrite Forall_forall in Hrange.
  destruct (group_nonempty df u Hu) as [r Hr].
  unfold avgSessionDuration. fold (group df u).
  apply sql_avg_nonneg.
  - intros E. apply map_eq_nil in E.
    assert (H : In (sessionId (event r))
                   (nodup Z.eq_dec (map (fun r => sessionId (event r)) (group df u)))).
    { apply nodup_In. now apply (in_map (fun r => sessionId (event r))). }
    rewrite E in H. destruct H.
  - apply Forall_forall. intros v Hv. apply in_map_iff in Hv as (s & <- & Hs).
    apply nodup_In, in_map_iff in Hs as (x & Hx & Hxin).
    set (rows := filter (fun r => sessionId (event r) =? s) (group df u)).
    assert (Hxr : In (lts x) (map lts rows)).
    { apply in_map. apply filter_In. split; auto. now apply Z.eqb_eq. }
    destruct (sql_min_some (map lts rows)) as [a Ha];
      [intros E; rewrite E in Hxr; destruct Hxr|].
    destruct (sql_max_some (map lts rows)) as [b Hb];
      [intros E; rewrite E in Hxr; destruct Hxr|].
    rewrite Ha, Hb. simpl sql_sub.
    apply sql_min_spec in Ha as [Hain Ha]. apply sql_max_spec in Hb as [Hbin Hb].
    specialize (Ha _ Hxr). specialize (Hb _ Hxr).
    assert (Hin : forall t, In t (map lts rows) -> 0 <= t < 2 ^ 63).
    { intros t Ht. apply in_map_iff in Ht as (y & <- & Hy).
      apply filter_In in Hy as [Hy _].
      apply (partitionBy_In luid u df y) in Hy as [Hy _]. now apply Hrange. }
    pose proof (Hin a Hain) as Ra. pose proof (Hin b Hbin) as Rb.
    rewrite wrap_long_small by lia.
    simpl of_long. rewrite to_hours.
    eexists. split; [reflexivity|]. apply hours_nonneg. lia.
Qed.

Lemma avg_session_duration_nonnegative_witness :
  exists q, avgSessionDuration rate_log "A" = Some q /\ (0 <= q)%Q.
Proof.
  apply (avg_session_duration_nonnegative rate_log "A").
  - long_timestamps.
  - vm_compute. auto.
Defined.

Lemma user_row_Churn (df : list Labeled) (u : string) :
  col "Churn" (user_row df u) = of_long (user_label df u).
Proof.
  unfold user_row, joined_user, agg_user. cbn [map count_columns app fst snd].
  rewrite finish_user_explicit. reflexivity.
Qed.

(** X7: the label column of the row emitted for a user of the labeled log
    is 1 when the user has a cancellation confirmation in the log and 0
    otherwise. *)
Theorem user_row_label (log : list Event) (u : string) :
  In u (users (label_data log)) ->
  (has_cancellation log u -> col "Churn" (user_row (label_data log) u) = Some 1%Q)
  /\ (~ has_cancellation log u -> col "Churn" (user_row (label_data log) u) = Some 0%Q).
Proof.
  intros Hu. rewrite user_row_Churn. unfold user_label.
  destruct (group_nonempty _ u Hu) as [r0 Hr0].
  apply (proj2 (orderBy_In lts r0 (group (label_data log) u))) in Hr0.
  fold (windowed_group (label_data log) u) in Hr0.
  destruct (windowed_group (label_data log) u) as [|r g] eqn:Eg; [destruct Hr0|]. simpl.
  assert (Hr : In r (windowed_group (label_data log) u)) by (rewrite Eg; now left).
  apply (proj1 (orderBy_In lts r (group (label_data log) u))) in Hr.
  apply (partitionBy_In luid u (label_data log) r) in Hr as [Hr Hru].
  rewrite (label_data_value log r Hr). unfold luid in Hru. rewrite Hru.
  split; intros H.
  - apply has_cancellationb_spec in H. now rewrite H.
  - destruct (has_cancellationb log u) eqn:E; auto.
    apply has_cancellationb_spec in E. contradiction.
Qed.

Lemma user_row_label_witness :
  (has_cancellation log3 "1" -> col "Churn" (user_row (label_data log3) "1") = Some 1%Q)
  /\ (~ has_cancellation log3 "1" ->
      col "Churn" (user_row (label_data log3) "1") = Some 0%Q).
Proof.
  apply (user_row_label log3 "1"). vm_compute. auto.
Defined.



(** ** Cleaning *)

Lemma clean_data_events (df : list RawEvent) (e : Event) :
  In e (map clean_event (clean_data df)) <->
  exists r, In r df /\ raw_event r = e /\ registration e <> None.
Proof.
  unfold clean_data. rewrite map_map. simpl. rewrite in_map_iff. split.
  - intros (r & <- & Hr). apply filter_In in Hr as [Hr Hn].
    exists r. repeat split; auto.
    destruct (registration (raw_event r)); [discriminate | discriminate Hn].
  - intros (r & Hr & <- & Hn). exists r. split; auto.
    apply filter_In. split; auto.
    destruct (registration (raw_event r)); [reflexivity | congruence].
Qed.

Lemma user_row_registDuration (df : list Labeled) (u : string) :
  col "registDuration" (user_row df u) = registDuration df u.
Proof.
  unfold user_row, joined_user, agg_user. cbn [map count_columns app fst snd].
  rewrite finish_user_explicit. reflexivity.
Qed.

(** X9: after cleaning, the registration duration of every user is
    defined, never null: it is the 64-bit difference between the timestamp
    and the registration time of the last row of the user, in days. *)
Theorem regist_duration_defined (df : list RawEvent) (u : string) :
  In u (users (cleaned_and_labeled df)) ->
  exists l reg,
    In l (cleaned_and_labeled df) /\ luid l = u
    /\ registration (event l) = Some reg
    /\ col "registDuration" (user_row (cleaned_and_labeled df) u)
       = Some (inject_Z (wrap_long (lts l - reg)) / 1000 / 3600 / 24)%Q.
Proof.
  intros Hu. rewrite user_row_registDuration. unfold registDuration.
  destruct (group_nonempty _ u Hu) as [r0 Hr0].
  destruct (sql_last_some (group (cleaned_and_labeled df) u)) as [l Hl].
  { intros E. rewrite E in Hr0. destruct Hr0. }
  pose proof (sql_last_In _ _ Hl) as Hin.
  apply (partitionBy_In luid u (cleaned_and_labeled df) l) in Hin as [Hin Hlu].
  assert (Hreg : registration (event l) <> None).
  { unfold cleaned_and_labeled in Hin. apply label_data_row in Hin as [Hin _].
    apply clean_data_events in Hin as (r & _ & _ & Hn). exact Hn. }
  destruct (registration (event l)) as [reg|] eqn:Ereg; [|congruence].
  exists l, reg. repeat split; auto.
  rewrite Hl. simpl. rewrite Ereg. simpl. apply to_days.
Qed.

Lemma regist_duration_defined_witness :
  exists l reg,
    In l (cleaned_and_labeled raw_log) /\ luid l = "7"
    /\ registration (event l) = Some reg
    /\ col "registDuration" (user_row (cleaned_and_labeled raw_log) "7")
       = Some (inject_Z (wrap_long (lts l - reg)) / 1000 / 3600 / 24)%Q.
Proof.
  apply (regist_duration_defined raw_log "7"). vm_compute. auto.
Defined.

(** *** [str.split] and the location lambda *)

Lemma prefix_refl_app (t y : string) : String.prefix t (t ++ y)%string = true.
Proof.
  induction t as [|c t IH]; simpl; [now destruct y|].
  destruct (Ascii.ascii_dec c c); [exact IH | congruence].
Qed.

Lemma prefix_trans (a b c : string) :
  String.prefix a b = true -> String.prefix b c = true -> String.prefix a c = true.
Proof.
  revert b c. induction a as [|x a IH]; intros b c Hab Hbc; [now destruct c|].
  destruct b as [|y b]; [discriminate|]. destruct c as [|z c]; [discriminate|].
  simpl in *.
  destruct (Ascii.ascii_dec x y) as [->|]; [|discriminate].
  destruct (Ascii.ascii_dec y z) as [->|]; [|discriminate].
  now apply (IH b c).
Qed.

Lemma prefix_first_char (c0 d : Ascii.ascii) (tl s : string) :
  Ascii.eqb c0 d = false -> String.prefix (String c0 tl) (String d s) = false.
Proof.
  intros H. simpl. destruct (Ascii.ascii_dec c0 d) as [->|]; auto.
  now rewrite Ascii.eqb_refl in H.
Qed.

Lemma split_from_nonempty (sep s : string) (skip : nat) : split_from sep s skip <> [].
Proof.
  revert skip. induction s as [|c s IH]; intros skip; cbn [split_from];
    [discriminate|].
  destruct skip; [|apply IH].
  destruct (String.prefix sep (String c s)); [discriminate|].
  specialize (IH O). destruct (split_from sep s 0); [congruence | discriminate].
Qed.

Lemma split_from_skip (sep t y : string) :
  split_from sep (t ++ y)%string (String.length t) = split_from sep y O.
Proof.
  induction t as [|c t IH]; simpl; auto.
Qed.

(** Without an occurrence of the separator the string is the only piece. *)
Lemma split_no_occurrence (sep s : string) :
  occurs sep s = false -> py_split sep s = [s].
Proof.
  unfold py_split. induction s as [|c s IH]; simpl; intros H.
  - reflexivity.
  - apply orb_false_iff in H as [Hp Ho]. simpl in Hp. rewrite Hp, (IH Ho). reflexivity.
Qed.

(** With an occurrence there are at least two pieces. *)
Lemma split_occurrence (sep s : string) :
  sep <> EmptyString -> occurs sep s = true ->
  (2 <= List.length (py_split sep s))%nat.
Proof.
  intros Hsep. unfold py_split. induction s as [|c s IH]; intros H.
  - simpl in H. destruct sep; [congruence | discriminate].
  - cbn [occurs] in H. cbn [split_from].
    destruct (String.prefix sep (String c s)) eqn:Hp.
    + pose proof (split_from_nonempty sep s (String.length sep - 1)) as Hne.
      destruct (split_from sep s (String.length sep - 1)); [congruence|]. simpl. lia.
    + simpl in H. specialize (IH H).
      destruct (split_from sep s 0); simpl in *; lia.
Qed.

(** The piece before the first occurrence of the separator, when the text
    before it does not contain the first character of the separator. *)
Lemma split_at_separator (c0 : Ascii.ascii) (tl a y : string) :
  has_char c0 a = false ->
  py_split (String c0 tl) (a ++ String c0 tl ++ y)%string
  = a :: py_split (String c0 tl) y.
Proof.
  unfold py_split. induction a as [|d a IH]; intros H.
  - change ("" ++ String c0 tl ++ y)%string with (String c0 (tl ++ y)%string).
    cbn [split_from].
    change (String c0 (tl ++ y)%string) with (String c0 tl ++ y)%string.
    rewrite prefix_refl_app.
    replace (String.length (String c0 tl) - 1)%nat with (String.length tl)
      by (simpl; lia).
    now rewrite split_from_skip.
  - simpl in H. apply orb_false_iff in H as [Hd Ha].
    change (String d a ++ String c0 tl ++ y)%string
      with (String d (a ++ String c0 tl ++ y)%string).
    cbn [split_from].
    rewrite (prefix_first_char c0 d tl _ Hd), (IH Ha). reflexivity.
Qed.

(** The first piece begins with the leading text that does not contain
    the first character of the separator. *)
Lemma split_leading (c0 : Ascii.ascii) (tl st y : string) :
  has_char c0 st = false ->
  exists p ps, py_split (String c0 tl) y = p :: ps
               /\ py_split (String c0 tl) (st ++ y)%string = (st ++ p)%string :: ps.
Proof.
  unfold py_split. intros H. induction st as [|d st IH].
  - simpl. pose proof (split_from_nonempty (String c0 tl) y 0) as Hne.
    destruct (split_from (String c0 tl) y 0) as [|p ps]; [congruence|]. eauto.
  - simpl in H. apply orb_false_iff in H as [Hd Hs].
    destruct (IH Hs) as (p & ps & E1 & E2). exists p, ps. split; auto.
    change (String d st ++ y)%string with (String d (st ++ y)%string).
    cbn [split_from].
    rewrite (prefix_first_char c0 d tl _ Hd), E2. reflexivity.
Qed.

Lemma append_empty (s : string) : (s ++ "")%string = s.
Proof. induction s as [|c s IH]; simpl; congruence. Qed.

(** X10: on a location of the form "<city>, <state>" or
    "<city>, <state>-<more>", where the city has no comma and the state has
    neither a comma nor a hyphen, the location lambda returns the state. *)
Theorem state_udf_returns_state (city st more : string) :
  has_char ","%char city = false ->
  has_char ","%char st = false -> has_char "-"%char st = false ->
  more = EmptyString \/ (exists r, more = String "-"%char r) ->
  state_udf (Some (city ++ ", " ++ st ++ more)%string) = Returned st.
Proof.
  intros Hcity Hcomma Hdash Hmore. unfold state_udf.
  rewrite (split_at_separator ","%char " " city _ Hcity).
  destruct (split_leading ","%char " " st more Hcomma) as (p & ps & Ep & ->).
  assert (Hp : p = EmptyString \/ exists q, p = String "-"%char q).
  { destruct Hmore as [-> | [r ->]].
    - left. cbn in Ep. now injection Ep as <- _.
    - right.
      destruct (split_leading ","%char " " "-" r eq_refl) as (p' & ps' & _ & E).
      cbn [String.append] in E. rewrite E in Ep. injection Ep as <- _. eauto. }
  destruct Hp as [-> | [q ->]].
  - rewrite append_empty, split_no_occurrence; auto.
    clear -Hdash. induction st as [|d st IH]; auto.
    simpl in Hdash. apply orb_false_iff in Hdash as [Hd Hs].
    cbn [occurs]. rewrite (prefix_first_char "-"%char d "" st Hd). simpl. auto.
  - change (st ++ String "-"%char q)%string
      with (st ++ String "-"%char "" ++ q)%string.
    now rewrite (split_at_separator "-"%char "" st q Hdash).
Qed.

Lemma state_udf_returns_state_witness :
  state_udf (Some ("Boston-Cambridge-Newton" ++ ", " ++ "MA" ++ "-NH")%string)
  = Returned "MA".
Proof.
  apply (state_udf_returns_state "Boston-Cambridge-Newton" "MA" "-NH").
  - reflexivity.
  - reflexivity.
  - reflexivity.
  - right. exists "NH". reflexivity.
Defined.

Lemma state_udf_index_error_aux (x : string) :
  occurs ", " x = false -> state_udf (Some x) = Failed IndexError.
Proof. intros H. unfold state_udf. now rewrite split_no_occurrence. Qed.

(** X11: on a location that is not null the location lambda raises
    [IndexError] exactly when the text does not contain ", "; otherwise it
    returns a value. *)
Theorem state_udf_index_error (x : string) :
  (occurs ", " x = false -> state_udf (Some x) = Failed IndexError)
  /\ (occurs ", " x = true -> exists s, state_udf (Some x) = Returned s).
Proof.
  split; intros H.
  - now apply state_udf_index_error_aux.
  - unfold state_udf. pose proof (split_occurrence ", " x) as Hlen.
    destruct (py_split ", " x) as [|p0 [|p ps]];
      try (simpl in Hlen; specialize (Hlen ltac:(discriminate) H); lia).
    pose proof (split_from_nonempty "-" p 0) as Hne. unfold py_split.
    destruct (split_from "-" p 0) as [|q qs]; [congruence|]. eauto.
Qed.

Lemma first_piece_prefix (sep s : string) :
  exists p ps, py_split sep s = p :: ps /\ String.prefix p s = true.
Proof.
  unfold py_split. induction s as [|c s (p & ps & E & Hp)].
  - exists EmptyString, []. auto.
  - cbn [split_from]. destruct (String.prefix sep (String c s)).
    + do 2 eexists. split; [reflexivity|]. reflexivity.
    + rewrite E. exists (String c p), ps. split; auto.
      simpl. destruct (Ascii.ascii_dec c c); [exact Hp | congruence].
Qed.

Lemma pieces_no_occurrence (sep s : string) (skip : nat) :
  sep <> EmptyString ->
  Forall (fun p => occurs sep p = false) (split_from sep s skip).
Proof.
  intros Hsep. revert skip. induction s as [|c s IH]; intros skip.
  - simpl. constructor; [|constructor]. destruct sep; [congruence | reflexivity].
  - cbn [split_from]. destruct skip; [|apply IH].
    destruct (String.prefix sep (String c s)) eqn:Hp.
    + constructor; [|apply IH]. destruct sep; [congruence | reflexivity].
    + destruct (first_piece_prefix sep s) as (p & ps & E & Hpre).
      unfold py_split in E. specialize (IH O). rewrite E in *. simpl.
      inversion IH as [|? ? Hocc Hrest]; subst. constructor; auto.
      cbn [occurs]. rewrite Hocc, orb_false_r.
      destruct (String.prefix sep (String c p)) eqn:Hp'; auto.
      rewrite (prefix_trans sep (String c p) (String c s)) in Hp; auto.
      simpl. destruct (Ascii.ascii_dec c c); [exact Hpre | congruence].
Qed.

Lemma occurs_prefix (sep s p : string) :
  String.prefix s p = true -> occurs sep s = true -> occurs sep p = true.
Proof.
  revert p. induction s as [|c s IH]; intros p Hpre Hocc.
  - simpl in Hocc. rewrite orb_false_r in Hocc.
    assert (Hp : String.prefix sep p = true)
      by (apply (prefix_trans sep EmptyString p); auto; now destruct p).
    destruct p; cbn [occurs]; now rewrite Hp.
  - destruct p as [|d p]; [discriminate|].
    simpl in Hpre. destruct (Ascii.ascii_dec c d) as [->|]; [|discriminate].
    cbn [occurs] in *. apply orb_true_iff in Hocc as [Hocc | Hocc].
    + rewrite (prefix_trans sep (String d s) (String d p)); auto.
      simpl. destruct (Ascii.ascii_dec d d); [exact Hpre | congruence].
    + rewrite (IH p Hpre Hocc). apply orb_true_r.
Qed.

(** X12: the location lambda cannot be applied to its own result: what it
    returns never contains ", ", so a second application raises
    [IndexError]. *)
Theorem state_udf_not_idempotent (x s : string) :
  state_udf (Some x) = Returned s -> state_udf (Some s) = Failed IndexError.
Proof.
  intros H. apply state_udf_index_error_aux.
  unfold state_udf in H.
  pose proof (pieces_no_occurrence ", " x 0 ltac:(discriminate)) as Hall.
  fold (py_split ", " x) in Hall.
  destruct (py_split ", " x) as [|p0 [|p ps]]; try discriminate.
  inversion Hall as [|? ? _ Hrest]; subst. inversion Hrest as [|? ? Hp _]; subst.
  destruct (first_piece_prefix "-" p) as (q & qs & E & Hpre).
  rewrite E in H. injection H as <-.
  destruct (occurs ", " q) eqn:Hq; auto.
  rewrite (occurs_prefix ", " q p Hpre Hq) in Hp. discriminate.
Qed.

Lemma state_udf_not_idempotent_witness :
  state_udf (Some "MA") = Failed IndexError.
Proof.
  apply (state_udf_not_idempotent "Boston-Cambridge-Newton, MA-NH" "MA").
  reflexivity.
Defined.

(** ** The reducer: what a caller can rely on *)

Section ReducerExtras.
Context {Column : Type}.
Variable corr : Column -> Column -> Q.

(** X13: no two columns of the table the function returns are highly
    correlated: the absolute value of their correlation is at most the
    threshold. *)
Theorem result_pairwise_uncorrelated
        (df out : @DataFrame Column) (label : string) (threshold : Q)
        (c1 c2 : string * Column) :
  NoDup (columns df) ->
  drop_multicollinear_features corr df label threshold = Ok out ->
  In c1 out -> In c2 out -> c1 <> c2 ->
  (Qabs (corr (snd c1) (snd c2)) <= threshold)%Q.
Proof.
  intros Hnd Hrun H1 H2 Hne.
  apply In_nth_error in H1 as [p Hp]. apply In_nth_error in H2 as [q Hq].
  assert (Hpq : p <> q) by (intros ->; congruence).
  assert (Hpl : (p < List.length out)%nat) by (apply nth_error_Some; congruence).
  assert (Hql : (q < List.length out)%nat) by (apply nth_error_Some; congruence).
  apply Qnot_lt_le. intros Hlt.
  apply (output_not_adjacent corr df out label threshold p q Hnd Hrun Hpl Hql).
  split; auto. left. now rewrite (corr_values_nth corr out p q c1 c2 Hp Hq).
Qed.

(** X14: when the label is not a column of the table and the table has a
    redundant group, the function raises [KeyError] for the label. *)
Theorem missing_label_raises
        (df : @DataFrame Column) (label : string) (threshold : Q) (i : nat) :
  ~ In label (columns df) ->
  in_redundant_group corr df threshold i ->
  drop_multicollinear_features corr df label threshold = Raise (KeyError label).
Proof.
  intros Hmiss Hred.
  assert (Hi : (i < List.length df)%nat).
  { destruct Hred as (j & _ & Hs).
    apply (same_component_bounded corr df threshold i j Hs). }
  apply (high_label_redundant corr df threshold i Hi) in Hred.
  apply mems_not_In in Hmiss.
  unfold drop_multicollinear_features, cols_to_drop, high_corr_col_dict.
  destruct (high_corr_labels corr df threshold) as [|l ls]; [destruct Hred|].
  cbn [List.length Nat.ltb Nat.leb map snd reduce_groups].
  unfold reduce_group, loc. cbn [fst]. rewrite Hmiss. reflexivity.
Qed.

(** X15: with a threshold of 1 or more, and correlations that do not
    exceed 1 in absolute value, the function never returns a table: no
    column has a neighbour, and the unassigned [cols_to_drop] is read. *)
Theorem threshold_one_never_returns
        (df : @DataFrame Column) (label : string) (threshold : Q) :
  (forall c1 c2, In c1 df -> In c2 df -> (Qabs (corr (snd c1) (snd c2)) <= 1)%Q) ->
  (1 <= threshold)%Q ->
  drop_multicollinear_features corr df label threshold
  = Raise (UnboundLocalError "cols_to_drop").
Proof.
  intros Hbound Hth. apply reducer_unbound.
  destruct (high_corr_labels corr df threshold) as [|l ls] eqn:E; [reflexivity|].
  exfalso.
  destruct (high_label_column corr df threshold l) as (i & Hi & Hred);
    [rewrite E; now left|].
  apply in_redundant_group_adjacent in Hred as (j & Hj & _ & Hhigh); auto.
  destruct (nth_error df i) as [ci|] eqn:Ei; [|apply nth_error_None in Ei; lia].
  destruct (nth_error df j) as [cj|] eqn:Ej; [|apply nth_error_None in Ej; lia].
  rewrite (corr_values_nth corr df i j ci cj Ei Ej),
          (corr_values_nth corr df j i cj ci Ej Ei) in Hhigh.
  apply nth_error_In in Ei, Ej.
  destruct Hhigh as [H | H]; apply Qlt_not_le in H; apply H;
    (eapply Qle_trans; [|exact Hth]); now apply Hbound.
Qed.

(** X16: when the label is the first column, the column names are
    distinct and no column is more correlated with the label than the label
    itself, every table the function returns still holds the label column. *)
Theorem label_first_returns_labeled
        (rest out : @DataFrame Column) (label : string) (y : Column)
        (threshold : Q) :
  NoDup (columns ((label, y) :: rest)) ->
  (forall c, In c ((label, y) :: rest) -> (corr (snd c) y <= corr y y)%Q) ->
  drop_multicollinear_features corr ((label, y) :: rest) label threshold = Ok out ->
  In (label, y) out.
Proof.
  intros Hnd Hmax Hout.
  now apply (first_label_retained corr rest out label y threshold).
Qed.
End ReducerExtras.

Lemma result_pairwise_uncorrelated_witness :
  (Qabs (matrix_corr chain_matrix 0%nat 2%nat) <= 0.85)%Q.
Proof.
  apply (result_pairwise_uncorrelated (matrix_corr chain_matrix) chain_table
           [("Churn", 0%nat); ("B", 2%nat)] "Churn" 0.85%Q
           ("Churn", 0%nat) ("B", 2%nat)).
  - distinct_names.
  - vm_compute. reflexivity.
  - left; reflexivity.
  - right; left; reflexivity.
  - discriminate.
Defined.

Lemma missing_label_raises_witness :
  drop_multicollinear_features (matrix_corr negative_matrix) negative_table
                               "Label" 0.85%Q
  = Raise (KeyError "Label").
Proof.
  apply (missing_label_raises (matrix_corr negative_matrix) negative_table
           "Label" 0.85%Q 1%nat).
  - simpl. intuition discriminate.
  - apply has_neighbour_spec; [simpl; lia | reflexivity].
Defined.

Lemma threshold_one_never_returns_witness :
  drop_multicollinear_features (matrix_corr copy_matrix) copy_table "Churn" 1%Q
  = Raise (UnboundLocalError "cols_to_drop").
Proof.
  apply threshold_one_never_returns.
  - intros c1 c2 [<- | [<- | []]] [<- | [<- | []]]; vm_compute; discriminate.
  - vm_compute. discriminate.
Defined.

Lemma label_first_returns_labeled_witness :
  In ("Churn"%string, 0%nat) [("Churn"%string, 0%nat); ("B"%string, 2%nat)].
Proof.
  apply (label_first_returns_labeled (matrix_corr chain_matrix)
           [("A", 1%nat); ("B", 2%nat); ("C", 3%nat)]
           [("Churn", 0%nat); ("B", 2%nat)] "Churn" 0%nat 0.85%Q).
  - distinct_names.
  - intros c [<- | [<- | [<- | [<- | []]]]]; vm_compute; discriminate.
  - vm_compute. reflexivity.
Defined.

(** ** Binary and numerical columns *)

Lemma num_cols_In (schema : list (string * DataType)) (c : string) :
  In c (num_cols schema) <->
  exists t, In (c, t) schema /\ is_IntegerType t = false.
Proof.
  unfold num_cols. rewrite in_map_iff. split.
  - intros ([c' t] & E & H). simpl in E. subst c'.
    apply filter_In in H as [H Ht]. exists t. split; auto.
    now apply negb_true_iff in Ht.
  - intros (t & H & Ht). exists (c, t). split; auto.
    apply filter_In. split; auto. now apply negb_true_iff.
Qed.

Lemma bin_cols_In (schema : list (string * DataType)) (c : string) :
  In c (bin_cols schema) <->
  In c (map fst schema) /\ ~ In c (num_cols schema) /\ c <> "Churn"%string.
Proof.
  unfold bin_cols. rewrite filter_In, negb_true_iff, mems_not_In, in_app_iff.
  simpl. intuition congruence.
Qed.

(** The label is never among the binary columns, and no column is both
    binary and numerical. *)
Lemma label_never_binary (schema : list (string * DataType)) :
  ~ In "Churn"%string (bin_cols schema)
  /\ (forall c, In c (bin_cols schema) -> ~ In c (num_cols schema)).
Proof.
  split.
  - intros H. apply bin_cols_In in H. tauto.
  - intros c H. apply bin_cols_In in H. tauto.
Qed.

Lemma field_type_unique (schema : list (string * DataType)) (c : string)
      (t t' : DataType) :
  NoDup (map fst schema) -> In (c, t) schema -> In (c, t') schema -> t = t'.
Proof.
  induction schema as [|[c0 t0] schema IH]; simpl; intros Hnd H H'; [destruct H|].
  inversion Hnd as [|? ? Hnin Hnd']; subst.
  destruct H as [E | H], H' as [E' | H'].
  - congruence.
  - injection E as -> ->. exfalso. apply Hnin.
    now apply (in_map fst _ (c, t')) in H'.
  - injection E' as -> ->. exfalso. apply Hnin.
    now apply (in_map fst _ (c, t)) in H.
  - now apply IH.
Qed.

(** X17: when the column names are distinct and the label has integer
    type, the feature list [bin_cols + num_cols] holds every column except
    the label exactly once. *)
Theorem features_are_the_other_columns (schema : list (string * DataType)) :
  NoDup (map fst schema) ->
  In ("Churn"%string, IntegerType) schema ->
  NoDup (features schema)
  /\ (forall c, In c (features schema) <->
                In c (map fst schema) /\ c <> "Churn"%string).
Proof.
  intros Hnd Hlabel. unfold features. split.
  - apply NoDup_app.
    + unfold bin_cols. now apply NoDup_filter.
    + unfold num_cols. now apply NoDup_map_fst_filter.
    + intros c Hb. now apply label_never_binary.
  - intros c. rewrite in_app_iff, bin_cols_In. split.
    + intros [H | H]; [tauto|].
      apply num_cols_In in H as (t & Ht & Hint). split.
      * now apply (in_map fst _ (c, t)) in Ht.
      * intros ->. rewrite (field_type_unique schema _ t IntegerType Hnd Ht Hlabel) in Hint.
        discriminate.
    + intros [Hc Hne].
      apply in_map_iff in Hc as ([c' t] & E & Ht). simpl in E. subst c'.
      destruct (is_IntegerType t) eqn:Et.
      * left. repeat split; auto.
        -- now apply (in_map fst _ (c, t)) in Ht.
        -- intros Hn. apply num_cols_In in Hn as (t' & Ht' & Hint).
           rewrite (field_type_unique schema c t' t Hnd Ht' Ht) in Hint. congruence.
      * right. apply num_cols_In. eauto.
Qed.

Lemma features_are_the_other_columns_witness :
  NoDup (features [("Churn", IntegerType); ("registDuration", DoubleType);
                   ("level", IntegerType)])
  /\ (forall c, In c (features [("Churn", IntegerType); ("registDuration", DoubleType);
                                ("level", IntegerType)]) <->
                In c (map fst [("Churn", IntegerType); ("registDuration", DoubleType);
                               ("level", IntegerType)]) /\ c <> "Churn"%string).
Proof.
  apply features_are_the_other_columns.
  - simpl. distinct_names.
  - left; reflexivity.
Defined.

(** ** Training and test set *)

Lemma Qltb_lt (a b : Q) : Qltb a b = true <-> (a < b)%Q.
Proof.
  unfold Qltb. rewrite negb_true_iff. split.
  - intros H. apply Qnot_le_lt. intros Hle.
    apply Qle_bool_iff in Hle. congruence.
  - intros H. destruct (Qle_bool b a) eqn:E; auto.
    apply Qle_bool_iff in E. now apply Qlt_not_le in H.
Qed.

Lemma filter_two_length {A : Type} (p q : A -> bool) (l : list A) :
  (forall x, In x l -> p x = true -> q x = false) ->
  (List.length (filter p l) + List.length (filter q l) <= List.length l)%nat.
Proof.
  induction l as [|x l IH]; simpl; intros H; auto.
  assert (IH' := IH (fun y Hy => H y (or_intror Hy))).
  destruct (p x) eqn:Ep.
  - rewrite (H x (or_introl eq_refl) Ep). simpl. lia.
  - destruct (q x); simpl; lia.
Qed.

Lemma map_snd_combine_seq {A : Type} (l : list A) (start : nat) :
  map snd (combine (seq start (List.length l)) l) = l.
Proof.
  revert start. induction l as [|x l IH]; intros start; simpl; auto.
  now rewrite IH.
Qed.

Lemma filter_map_snd {A B : Type} (p : B -> bool) (l : list (A * B)) :
  filter p (map snd l) = map snd (filter (fun x => p (snd x)) l).
Proof.
  induction l as [|x l IH]; simpl; auto.
  destruct (p (snd x)); simpl; now rewrite IH.
Qed.

Lemma In_combine_seq {A : Type} (l : list A) (start i : nat) (x : A) :
  nth_error l i = Some x ->
  In ((start + i)%nat, x) (combine (seq start (List.length l)) l).
Proof.
  revert start i. induction l as [|y l IH]; intros start i H.
  - destruct i; discriminate.
  - destruct i as [|i]; simpl in *.
    + injection H as ->. left. f_equal. lia.
    + right. replace (start + S i)%nat with (S start + i)%nat by lia.
      now apply IH.
Qed.

Section SplitFacts.
Context {Row : Type}.
Variable label_of : Row -> option Z.
Variable row_eqb : Row -> Row -> bool.
Variable rand : nat -> Q.

Hypothesis row_eqb_eq : forall a b, row_eqb a b = true <-> a = b.
Hypothesis rand_range : forall i, (0 <= rand i)%Q /\ (rand i < 1)%Q.

Local Abbreviation Sampled := (sampled label_of rand).
Local Abbreviation Subtract := (subtract row_eqb).
Local Abbreviation Split := (split_train_test label_of row_eqb rand).

Lemma row_in_In (r : Row) (df : list Row) : row_in row_eqb r df = true <-> In r df.
Proof.
  unfold row_in. rewrite existsb_exists. split.
  - intros (x & Hx & E). apply row_eqb_eq in E. now subst.
  - intros H. exists r. split; auto. now apply row_eqb_eq.
Qed.

Lemma distinct_rows_In (r : Row) (df : list Row) :
  In r (distinct_rows row_eqb df) <-> In r df.
Proof.
  induction df as [|x df IH]; simpl; [tauto|].
  rewrite filter_In, IH, negb_true_iff. split.
  - intros [H | [H _]]; auto.
  - intros [H | H]; auto.
    destruct (row_eqb x r) eqn:E; [apply row_eqb_eq in E; auto|]. right. auto.
Qed.

Lemma distinct_rows_NoDup (df : list Row) : NoDup (distinct_rows row_eqb df).
Proof.
  induction df as [|x df IH]; simpl; constructor.
  - intros H. apply filter_In in H as [_ H].
    rewrite (proj2 (row_eqb_eq x x) eq_refl) in H. discriminate.
  - now apply NoDup_filter.
Qed.

Lemma distinct_rows_length (df : list Row) :
  (List.length (distinct_rows row_eqb df) <= List.length df)%nat.
Proof.
  induction df as [|x df IH]; simpl; auto.
  pose proof (filter_length_le (fun y => negb (row_eqb x y)) (distinct_rows row_eqb df)).
  lia.
Qed.

Lemma subtract_In (r : Row) (left right : list Row) :
  In r (Subtract left right) <-> In r left /\ ~ In r right.
Proof.
  unfold subtract. rewrite distinct_rows_In, filter_In, negb_true_iff.
  pose proof (row_in_In r right) as Hin.
  destruct (row_in row_eqb r right).
  - split; [intros [_ H]; discriminate|]. intros [_ H]. exfalso. apply H, Hin. reflexivity.
  - split; intros [H _]; split; auto. intros Hr. apply Hin in Hr. discriminate.
Qed.

Lemma sampled_In (fraction : Q) (df : list Row) (r : Row) :
  In r (Sampled fraction df) ->
  In r df /\ exists i, (rand i < stratum_fraction fraction (label_of r))%Q.
Proof.
  unfold sampled. intros H. apply in_map_iff in H as ([i x] & E & H).
  simpl in E. subst x. apply filter_In in H as [H Hlt]. simpl in Hlt.
  split; [now apply in_combine_r in H|].
  exists i. now apply Qltb_lt.
Qed.

Lemma sampled_zero (fraction : Q) (df : list Row) (r : Row) :
  stratum_fraction fraction (label_of r) == 0 -> ~ In r (Sampled fraction df).
Proof.
  intros E H. apply sampled_In in H as [_ [i Hlt]].
  rewrite E in Hlt. apply Qlt_not_le in Hlt. apply Hlt, rand_range.
Qed.

Lemma sampled_one (df : list Row) (r : Row) :
  In r df -> label_of r = Some 0 \/ label_of r = Some 1 -> In r (Sampled 1 df).
Proof.
  intros Hr Hl. unfold sampled.
  apply In_nth_error in Hr as [i Hi].
  apply in_map_iff. exists (i, r). split; auto. apply filter_In. split.
  - apply (In_combine_seq df 0 i r Hi).
  - simpl. apply Qltb_lt.
    assert (E1 : stratum_fraction 1 (label_of r) = 1%Q)
      by (destruct Hl as [-> | ->]; reflexivity).
    rewrite E1. apply rand_range.
Qed.

Lemma valid_fraction_spec (p : Q) : valid_fraction p = true <-> (0 <= p)%Q /\ (p <= 1)%Q.
Proof.
  unfold valid_fraction. now rewrite andb_true_iff, !Qle_bool_iff.
Qed.

Lemma split_returns (model_df : list Row) (fraction : Q) :
  (0 <= fraction)%Q -> (fraction <= 1)%Q ->
  Split model_df fraction
  = Some (Sampled fraction model_df, Subtract model_df (Sampled fraction model_df)).
Proof.
  intros H0 H1. unfold split_train_test, sampleBy.
  now rewrite (proj2 (valid_fraction_spec fraction) (conj H0 H1)).
Qed.

(** X19: for a fraction in [0, 1] the split returns a training set and a
    test set that never share a row; the test set holds no row twice, and
    every row of the table is in one of the two. *)
Theorem train_test_partition (model_df : list Row) (fraction : Q) :
  (0 <= fraction)%Q -> (fraction <= 1)%Q ->
  exists train test,
    Split model_df fraction = Some (train, test)
    /\ (forall r, In r train -> ~ In r test)
    /\ NoDup test
    /\ (forall r, In r model_df <-> In r train \/ In r test).
Proof.
  intros H0 H1. eexists; eexists. split; [apply split_returns; assumption|].
  split; [|split].
  - intros r Hr Ht. apply subtract_In in Ht. tauto.
  - apply distinct_rows_NoDup.
  - intros r. rewrite subtract_In. split.
    + intros H. destruct (row_in row_eqb r (Sampled fraction model_df)) eqn:E.
      * left. now apply row_in_In.
      * right. split; auto. intros Hin. apply row_in_In in Hin. congruence.
    + intros [H | [H _]]; auto. now apply sampled_In in H.
Qed.

(** X20: the two sets together never have more rows than the table. *)
Theorem train_test_size (model_df : list Row) (fraction : Q) :
  (0 <= fraction)%Q -> (fraction <= 1)%Q ->
  exists train test,
    Split model_df fraction = Some (train, test)
    /\ (List.length train + List.length test <= List.length model_df)%nat.
Proof.
  intros H0 H1. eexists; eexists. split; [apply split_returns; assumption|].
  set (train := Sampled fraction model_df).
  pose proof (distinct_rows_length
                (filter (fun r => negb (row_in row_eqb r train)) model_df)) as Hd.
  fold (Subtract model_df train) in Hd.
  set (L := combine (seq 0 (List.length model_df)) model_df).
  assert (Hfilter : filter (fun r => negb (row_in row_eqb r train)) model_df
                    = map snd (filter (fun ir => negb (row_in row_eqb (snd ir) train)) L)).
  { rewrite <- (filter_map_snd (fun r => negb (row_in row_eqb r train)) L).
    subst L. now rewrite map_snd_combine_seq. }
  rewrite Hfilter, length_map in Hd.
  assert (Htrain : List.length train
                   = List.length
                       (filter (fun ir => Qltb (rand (fst ir))
                                               (stratum_fraction fraction (label_of (snd ir))))
                               L)).
  { subst train L. unfold sampled. now rewrite length_map. }
  pose proof (filter_two_length
                (fun ir => Qltb (rand (fst ir))
                                (stratum_fraction fraction (label_of (snd ir))))
                (fun ir => negb (row_in row_eqb (snd ir) train)) L) as Hlen.
  assert (HL : List.length L = List.length model_df).
  { subst L. rewrite length_combine, length_seq. lia. }
  rewrite HL, <- Htrain in Hlen.
  assert (Hpq : forall x, In x L ->
                  Qltb (rand (fst x)) (stratum_fraction fraction (label_of (snd x))) = true ->
                  negb (row_in row_eqb (snd x) train) = false).
  { intros x Hx Hp. apply negb_false_iff, row_in_In.
    subst train. unfold sampled. apply in_map. apply filter_In. auto. }
  specialize (Hlen Hpq). lia.
Qed.

(** X21: a row whose label is neither 0 nor 1 is never drawn into the
    training set, so every such row of the table is in the test set. *)
Theorem other_labels_go_to_test (model_df : list Row) (fraction : Q) (r : Row) :
  (0 <= fraction)%Q -> (fraction <= 1)%Q ->
  In r model_df -> label_of r <> Some 0 -> label_of r <> Some 1 ->
  exists train test,
    Split model_df fraction = Some (train, test)
    /\ ~ In r train /\ In r test.
Proof.
  intros Hf0 Hf1 Hr H0 H1. eexists; eexists.
  split; [apply split_returns; assumption|].
  assert (Hn : ~ In r (Sampled fraction model_df)).
  { apply sampled_zero. unfold stratum_fraction.
    destruct (label_of r) as [[|[| |]|]|]; try reflexivity; congruence. }
  split; auto. apply subtract_In. auto.
Qed.

(** X22: with fraction 0 the training set is empty and the test set holds
    the rows of the table; with fraction 1 the training set holds exactly
    the rows labelled 0 or 1 and the test set the others. *)
Theorem extreme_fractions (model_df : list Row) :
  (exists test,
      Split model_df 0 = Some ([], test)
      /\ forall r, In r test <-> In r model_df)
  /\ (exists train test,
         Split model_df 1 = Some (train, test)
         /\ forall r, In r model_df ->
              (In r train <-> label_of r = Some 0 \/ label_of r = Some 1)
              /\ (In r test <-> ~ (label_of r = Some 0 \/ label_of r = Some 1))).
Proof.
  split.
  - assert (E : Sampled 0 model_df = []).
    { destruct (Sampled 0 model_df) as [|r rs] eqn:E; auto. exfalso.
      assert (H : In r (Sampled 0 model_df)) by (rewrite E; now left).
      revert H. apply sampled_zero. unfold stratum_fraction.
      destruct (label_of r) as [[|[| |]|]|]; reflexivity. }
    eexists. split.
    + rewrite split_returns by (unfold Qle; simpl; lia). rewrite E. reflexivity.
    + intros r. rewrite subtract_In. simpl. tauto.
  - eexists; eexists. split; [apply split_returns; unfold Qle; simpl; lia|].
    intros r Hr.
    assert (Htrain : In r (Sampled 1 model_df)
                     <-> label_of r = Some 0 \/ label_of r = Some 1).
    { split; [|now apply sampled_one].
      intros H.
      destruct (label_of r) as [[|[| |]|]|] eqn:El; auto;
        exfalso; revert H; apply sampled_zero; rewrite El; reflexivity. }
    split; [exact Htrain|]. rewrite subtract_In, Htrain. tauto.
Qed.
End SplitFacts.

Lemma split_row_eqb_eq (a b : Z * option Z) : split_row_eqb a b = true <-> a = b.
Proof.
  destruct a as [i x], b as [j y]. unfold split_row_eqb. simpl.
  rewrite andb_true_iff, Z.eqb_eq, label_eqb_eq. split.
  - intros [-> ->]. reflexivity.
  - intros [= -> ->]. auto.
Qed.

Lemma split_rand_range (i : nat) : (0 <= split_rand i)%Q /\ (split_rand i < 1)%Q.
Proof.
  unfold split_rand. destruct (Nat.even i); split; reflexivity || discriminate.
Qed.

Lemma train_test_partition_witness :
  exists train test,
    split_train_test split_label split_row_eqb split_rand split_rows (8 # 10)
    = Some (train, test)
    /\ (forall r, In r train -> ~ In r test)
    /\ NoDup test
    /\ (forall r, In r split_rows <-> In r train \/ In r test).
Proof.
  apply (train_test_partition split_label split_row_eqb split_rand
                              split_row_eqb_eq split_rows (8 # 10)).
  - discriminate.
  - discriminate.
Defined.

Lemma train_test_size_witness :
  exists train test,
    split_train_test split_label split_row_eqb split_rand split_rows (8 # 10)
    = Some (train, test)
    /\ (List.length train + List.length test <= List.length split_rows)%nat.
Proof.
  apply (train_test_size split_label split_row_eqb split_rand
                         split_row_eqb_eq split_rows (8 # 10)).
  - discriminate.
  - discriminate.
Defined.

Lemma other_labels_go_to_test_witness :
  exists train test,
    split_train_test split_label split_row_eqb split_rand split_rows (8 # 10)
    = Some (train, test)
    /\ ~ In (3, Some 2) train /\ In (3, Some 2) test.
Proof.
  apply (other_labels_go_to_test split_label split_row_eqb split_rand
                                 split_row_eqb_eq split_rand_range
                                 split_rows (8 # 10) (3, Some 2)).
  - discriminate.
  - discriminate.
  - simpl. auto.
  - discriminate.
  - discriminate.
Defined.

Lemma extreme_fractions_witness :
  (exists test,
      split_train_test split_label split_row_eqb split_rand split_rows 0
      = Some ([], test)
      /\ forall r, In r test <-> In r split_rows)
  /\ (exists train test,
         split_train_test split_label split_row_eqb split_rand split_rows 1
         = Some (train, test)
         /\ forall r, In r split_rows ->
              (In r train <-> split_label r = Some 0 \/ split_label r = Some 1)
              /\ (In r test <-> ~ (split_label r = Some 0 \/ split_label r = Some 1))).
Proof.
  apply (extreme_fractions split_label split_row_eqb split_rand
                           split_row_eqb_eq split_rand_range split_rows).
Defined.
